(** * bling: colouring of text lines by regular expressions

    A shallow embedding of [bling.go] and of the second copy of the program
    kept in the repository (the variant whose segments are closed ranges),
    followed by the properties of the specification.

    Conventions of the embedding.
    - Go's [int] is modelled by [Z].  Every integer the program computes is a
      position of the line, a position plus or minus one, or a counter that
      stops at two; a slice length fits in [int], so no operation wraps.
    - [[]byte] is [list byte]; Go strings (arguments, colour names) are
      [string].
    - The regular-expression engine and the file system are outside the
      repository; they are the interfaces [RegexEngine] and [OS] below.
    - Writes to standard output, [log.Fatal] and panics are the effects of
      the small monad [io]; the diagnostics of package [log], which go to
      standard error with a time stamp, are kept only as the error given to
      [log.Fatal]. *)

From Stdlib Require Import ZArith Lia.
From Stdlib.Strings Require Import Byte Ascii String.
From stdpp Require Import base option list gmap strings sorting.

Local Open Scope Z_scope.

(** ** Colours *)

Abbreviation color := string (only parsing).

Definition BLACK   : color := "black".
Definition RED     : color := "red".
Definition GREEN   : color := "green".
Definition YELLOW  : color := "yellow".
Definition BLUE    : color := "blue".
Definition MAGENTA : color := "magenta".
Definition CYAN    : color := "CYAN".
Definition WHITE   : color := "white".
Definition RESET   : color := "reset".
Definition OVERLAP : color := "overlap".

(** The bytes of a string literal, and an ANSI escape sequence: ESC followed
    by the given text. *)
Fixpoint bytes (s : string) : list byte :=
  match s with
  | EmptyString => []
  | String a s' => byte_of_ascii a :: bytes s'
  end.
Definition esc (s : string) : list byte := x1b :: bytes s.

(** The table [colors].  [parseArgs] tests [colors[col] == nil] (the empty
    string in the closed-range variant); no entry is nil or empty, so the test
    is that of the presence of the key. *)
Definition colors : gmap string (list byte) :=
  list_to_map
    [ ("black",   esc "[30m");
      ("red",     esc "[31m");
      ("green",   esc "[32m");
      ("yellow",  esc "[33m");
      ("blue",    esc "[34m");
      ("magenta", esc "[35m");
      ("cyan",    esc "[36m");
      ("white",   esc "[37m");
      ("reset",   esc "[0m");
      ("overlap", esc "[37;1;4m") ].

(** [colors[c]]: indexing a Go map with an absent key gives the zero value,
    here the nil slice (the empty string in the closed-range variant). *)
Definition colors_at (c : color) : list byte := default [] (colors !! c).

(** ** Segments *)

Record segment := newSegment {
  seg_begin : Z;
  seg_end   : Z;
  seg_c     : color
}.

Definition contains (s : segment) (x : Z) : bool :=
  (seg_begin s <=? x) && (x <=? seg_end s).

(** [segment.end++] *)
Definition incr_end (s : segment) : segment :=
  newSegment (seg_begin s) (seg_end s + 1) (seg_c s).

(** ** The segmenter *)

(** The inner loop of [makeColorizedSegments]: the colour of position [i].
    [c] and [overlaps] are the two local variables; the second span found to
    contain [i] leaves the loop ([break]). *)
Fixpoint scanMatches (matches : list segment) (i : Z) (c : color) (overlaps : Z)
  : color :=
  match matches with
  | [] => c
  | m :: rest =>
      if contains m i then
        let overlaps := overlaps + 1 in
        if overlaps =? 1 then scanMatches rest i (seg_c m) overlaps
        else if 1 <? overlaps then OVERLAP
        else scanMatches rest i c overlaps
      else scanMatches rest i c overlaps
  end.

Definition colorOf (matches : list segment) (i : Z) : color :=
  scanMatches matches i RESET 0.

(** ** Slices

    [line[lo:hi]] panics unless [0 <= lo <= hi <= cap(line)]; the lines of
    this program are never resliced beyond their length, and the bound used
    here is the length. *)
Definition slice (line : list byte) (lo hi : Z) : option (list byte) :=
  if (0 <=? lo) && (lo <=? hi) && (hi <=? Z.of_nat (length line))
  then Some (take (Z.to_nat (hi - lo)) (drop (Z.to_nat lo) line))
  else None.

(** ** Errors, and programs that write to standard output

    A computation of type [io A] has written some bytes to standard output
    and then returned, stopped the process through [log.Fatal], or panicked.
    [OutOfFuel] is the result of a loop of the model that was not given
    enough iterations; [run_returns] below shows that [run] never yields
    it. *)

Inductive error :=
  | EOF                      (* io.EOF *)
  | Err (msg : string).      (* any other error value *)

Inductive result (A : Type) :=
  | Ret (a : A)
  | Fatal (e : error)        (* log.Fatal: diagnostic, then os.Exit(1) *)
  | Panic
  | OutOfFuel.
Arguments Ret {A} a.
Arguments Fatal {A} e.
Arguments Panic {A}.
Arguments OutOfFuel {A}.

Definition io (A : Type) : Type := list byte * result A.

Definition io_ret {A} (a : A) : io A := ([], Ret a).
Definition io_write (b : list byte) : io unit := (b, Ret tt).
Definition io_panic {A} : io A := ([], Panic).
Definition io_fatal {A} (e : error) : io A := ([], Fatal e).

Definition io_bind {A B} (m : io A) (f : A -> io B) : io B :=
  match m with
  | (out, Ret a) => let '(out', r) := f a in (out ++ out', r)
  | (out, Fatal e) => (out, Fatal e)
  | (out, Panic) => (out, Panic)
  | (out, OutOfFuel) => (out, OutOfFuel)
  end.

#[export] Instance io_mret : MRet io := @io_ret.
#[export] Instance io_mbind : MBind io := fun A B f m => io_bind m f.

(** The exit status of the process: 0 after a normal return of [main], 1
    after [log.Fatal], 2 after a panic. *)
Definition exit_status {A} (r : result A) : option Z :=
  match r with
  | Ret _ => Some 0
  | Fatal _ => Some 1
  | Panic => Some 2
  | OutOfFuel => None
  end.

(** ** The environment *)

(** Package [regexp].  [Compile] gives [None] for a pattern that does not
    parse.  [FindAllSubmatchIndex expr line (-1)] gives one index slice per
    match; the program reads its entries 0 and 1 only, the bounds of the whole
    match, and they are what the model keeps.  A [nil] result and an empty one
    are treated alike by the caller. *)
Class RegexEngine := {
  Regexp : Type;
  Compile : string -> option Regexp;
  FindAllSubmatchIndex : Regexp -> list byte -> list (Z * Z)
}.

(** A [bufio.Reader] over an [io.Reader]: the bytes that will be read, and
    the error the underlying reader returns once they are consumed ([EOF] at
    a clean end of input). *)
Record reader := mkReader {
  rd_data : list byte;
  rd_err  : error
}.

(** [os.Open] and [os.Stdin]. *)
Class OS := {
  Open : string -> error + reader;
  Stdin : reader
}.

(** [splitDelim delim l]: [l] cut after the first [delim]. *)
Fixpoint splitDelim (delim : byte) (l : list byte)
  : option (list byte * list byte) :=
  match l with
  | [] => None
  | b :: l' =>
      if Byte.eqb b delim then Some ([b], l')
      else match splitDelim delim l' with
           | Some (h, t) => Some (b :: h, t)
           | None => None
           end
  end.

(** [bufio.Reader.ReadBytes]: the data up to and including the delimiter; if
    an error is met before a delimiter, the data read before the error and
    the error itself.  The error is non-nil exactly when the data does not
    end in the delimiter. *)
Definition ReadBytes (br : reader) (delim : byte)
  : list byte * option error * reader :=
  match splitDelim delim (rd_data br) with
  | Some (ln, rest) => (ln, None, mkReader rest (rd_err br))
  | None => (rd_data br, Some (rd_err br), mkReader [] (rd_err br))
  end.

(** ** The matcher *)

Abbreviation exprsMap := (gmap string (list Regexp)) (only parsing).

Definition beginLe (a b : segment) : Prop := seg_begin a <= seg_begin b.

#[export] Instance beginLe_dec a b : Decision (beginLe a b) :=
  decide (seg_begin a <= seg_begin b).

(** [sort.Slice(matches, less)] with [less] comparing [begin]: the sort is
    not stable; a merge sort gives one of its possible results.  The order of
    [range exprs] is unspecified in Go; it is the order of [map_to_list]
    in [findMatchingSegments].  [makeColorizedSegments_Permutation] shows
    that the segmenter does not depend on the order of the spans. *)
Definition sortByBegin (matches : list segment) : list segment :=
  merge_sort beginLe matches.

Definition spansOf `{RegexEngine} (line : list byte) (c : color)
    (expr : Regexp) : list segment :=
  (fun idx : Z * Z => newSegment (fst idx) (snd idx - 1) c)
    <$> FindAllSubmatchIndex expr line.

Definition findMatchingSegments `{RegexEngine} (line : list byte)
    (exprs : exprsMap) : list segment :=
  let matches :=
    flat_map (fun ce : string * list Regexp =>
                flat_map (spansOf line (fst ce)) (snd ce))
             (map_to_list exprs) in
  sortByBegin matches.

(** ** Argument parsing *)

(** [\w] of the regexp syntax: an ASCII letter, a digit or an underscore. *)
Definition isWord (a : ascii) : bool :=
  let n := N_of_ascii a in
  (((48 <=? n) && (n <=? 57)) || ((65 <=? n) && (n <=? 90))
   || ((97 <=? n) && (n <=? 122)) || (n =? 95))%N.

Definition isNewline (a : ascii) : bool := (N_of_ascii a =? 10)%N.

(** The longest prefix of word characters, and what follows it. *)
Fixpoint spanWord (s : string) : string * string :=
  match s with
  | EmptyString => (EmptyString, EmptyString)
  | String a s' =>
      if isWord a
      then let '(w, r) := spanWord s' in (String a w, r)
      else (EmptyString, s)
  end.

(** The longest prefix without a line feed: what the last group of the
    expression takes, since a dot matches every character but the line
    feed. *)
Fixpoint untilNewline (s : string) : string :=
  match s with
  | EmptyString => EmptyString
  | String a s' => if isNewline a then EmptyString else String a (untilNewline s')
  end.

(** [re.FindStringSubmatch(arg)] for the expression of [parseArgs]: anchored
    at the start, a dash, a first group of one or more word characters, an
    equals sign, and a second group of any characters, as many as possible.
    The result is [nil] when [arg] does not match, else the match and the two
    groups.  The greedy first group must be followed by the equals sign, which
    is not a word character, so it is the longest run of word characters after
    the dash. *)
Definition reFindStringSubmatch (arg : string) : list string :=
  match arg with
  | String "-" s =>
      match spanWord s with
      | (EmptyString, _) => []
      | (w, String "=" r) =>
          let p := untilNewline r in
          ["-" +:+ w +:+ "=" +:+ p; w; p]
      | _ => []
      end
  | _ => []
  end.

Section Args.
Context `{RegexEngine} `{OS}.

(** [exprs[col] = append(exprs[col], expr)], after [exprs[col]] was made an
    empty slice if it was [nil]. *)
Definition addExpr (exprs : exprsMap) (col : color) (expr : Regexp)
  : exprsMap :=
  let exprs := match exprs !! col with
               | None => <[col := []]> exprs
               | Some _ => exprs
               end in
  <[col := default [] (exprs !! col) ++ [expr]]> exprs.

(** The loop of [parseArgs]; [i] is the index of the first argument of
    [args] and [n] is [len(args)] of the whole list.  The result is the error,
    or [exprs] and [rc] ([None] for [nil]) when the loop is left. *)
Fixpoint parseLoop (args : list string) (i n : Z) (exprs : exprsMap)
  : error + (exprsMap * option reader) :=
  match args with
  | [] => inr (exprs, None)
  | arg :: rest =>
      match reFindStringSubmatch arg with
      | [_; col; pattern] =>
          match colors !! col with
          | None => inl (Err ("Unrecognized color " +:+ col))
          | Some _ =>
              match Compile pattern with
              | None => inl (Err ("Invalid pattern " +:+ pattern))
              | Some expr => parseLoop rest (i + 1) n (addExpr exprs col expr)
              end
          end
      | _ =>
          if negb (i =? n - 1)
          then inl (Err ("Invalid argument " +:+ arg))
          else match Open arg with
               | inl err => inl err
               | inr f => inr (exprs, Some f)
               end
      end
  end.

Definition parseArgs (args : list string) : error + (exprsMap * reader) :=
  match parseLoop args 0 (Z.of_nat (length args)) ∅ with
  | inl err => inl err
  | inr (exprs, rc) => inr (exprs, default Stdin rc)
  end.

End Args.

(** ** The line driver and [main]

    [run] and [main] read the same in the two copies, up to the usage text;
    they are embedded once, over the segmenter and the renderer. *)

Module Driver.
Section Driver.
Context `{RegexEngine} `{OS}.
Variable makeColorizedSegments : list byte -> list segment -> list segment.
Variable printColorized : list byte -> list segment -> io unit.
Variable usage : string -> string.

(** The loop of [run]; the result is the returned [error], [None] for
    [nil]. *)
Fixpoint runLoop (fuel : nat) (br : reader) (exprs : exprsMap)
  : io (option error) :=
  match fuel with
  | O => ([], OutOfFuel)
  | S fuel' =>
      let '(line, err, br) := ReadBytes br x0a in
      match err with
      | Some EOF => mret None
      | Some e => mret (Some e)
      | None =>
          match last line with
          | None => io_panic
          | Some b =>
              let line :=
                if Byte.eqb b x0a
                then take (length line - 1)%nat line
                else line in
              let matches := findMatchingSegments line exprs in
              let colorized := makeColorizedSegments line matches in
              printColorized line colorized;;
              runLoop fuel' br exprs
          end
      end
  end.

(** [run].  An iteration that does not return consumes at least one byte, so
    one iteration more than the bytes of the input is enough. *)
Definition run (r : reader) (exprs : exprsMap) : io (option error) :=
  runLoop (S (length (rd_data r))) r exprs.

(** [main], from [os.Args].  The value returned by [run] is dropped. *)
Definition main (osArgs : list string) : io unit :=
  match osArgs with
  | [] => io_panic
  | [prog] => io_fatal (Err (usage prog))
  | _ :: args =>
      match parseArgs args with
      | inl err => io_fatal err
      | inr (exprs, file) => run file exprs;; mret tt
      end
  end.

End Driver.
End Driver.

(** ** Segmenter and renderer of [bling.go] *)

Module Bling.

(** The outer loop, [n] iterations being left and [i] the loop index;
    [segments] and [cur] are the variables [segments] and [segment]. *)
Fixpoint segmentLoop (n : nat) (i : Z) (matches segments : list segment)
    (cur : segment) : list segment * segment :=
  match n with
  | O => (segments, cur)
  | S n' =>
      let c := colorOf matches i in
      if String.eqb (seg_c cur) c
      then segmentLoop n' (i + 1) matches segments (incr_end cur)
      else segmentLoop n' (i + 1) matches (segments ++ [cur])
             (newSegment i (i + 1) c)
  end.

Definition makeColorizedSegments (line : list byte) (matches : list segment)
  : list segment :=
  let '(segments, cur) :=
    segmentLoop (length line) 0 matches [] (newSegment 0 0 RESET) in
  segments ++ [cur].

(** The loop of [printColorized] over the [strings.Builder] [b]. *)
Fixpoint buildLine (line : list byte) (segments : list segment)
    (b : list byte) : option (list byte) :=
  match segments with
  | [] => Some b
  | s :: rest =>
      match slice line (seg_begin s) (seg_end s) with
      | Some text =>
          buildLine line rest
            (b ++ colors_at (seg_c s) ++ text ++ colors_at RESET)
      | None => None
      end
  end.

(** [fmt.Println(b.String())] is the only write. *)
Definition printColorized (line : list byte) (segments : list segment)
  : io unit :=
  match buildLine line segments [] with
  | Some b => io_write (b ++ [x0a])
  | None => io_panic
  end.

Definition usage (prog : string) : string :=
  "Usage: " +:+ prog +:+ " -COLOR=PATTERN [-COLOR=PATTERN...] [FILE]".

Definition run `{RegexEngine} : reader -> exprsMap -> io (option error) :=
  Driver.run makeColorizedSegments printColorized.

Definition main `{RegexEngine} `{OS} : list string -> io unit :=
  Driver.main makeColorizedSegments printColorized usage.

End Bling.

(** ** Segmenter and renderer of the closed-range variant

    The second copy of the program keeps the bounds of a segment inclusive:
    the first segment starts as [(0, -1)], a new one as [(i, i)], and the
    renderer slices [line[begin:end+1]] and prints segment by segment. *)

Module Closed.

Fixpoint segmentLoop (n : nat) (i : Z) (matches segments : list segment)
    (cur : segment) : list segment * segment :=
  match n with
  | O => (segments, cur)
  | S n' =>
      let c := colorOf matches i in
      if String.eqb (seg_c cur) c
      then segmentLoop n' (i + 1) matches segments (incr_end cur)
      else segmentLoop n' (i + 1) matches (segments ++ [cur])
             (newSegment i i c)
  end.

Definition makeColorizedSegments (line : list byte) (matches : list segment)
  : list segment :=
  let '(segments, cur) :=
    segmentLoop (length line) 0 matches [] (newSegment 0 (-1) RESET) in
  segments ++ [cur].

(** The loop of [printColorized]: one [fmt.Printf] per segment. *)
Fixpoint printSegments (line : list byte) (segments : list segment)
  : io unit :=
  match segments with
  | [] => mret tt
  | s :: rest =>
      match slice line (seg_begin s) (seg_end s + 1) with
      | Some text =>
          io_write (colors_at (seg_c s) ++ text ++ colors_at RESET);;
          printSegments line rest
      | None => io_panic
      end
  end.

Definition printColorized (line : list byte) (segments : list segment)
  : io unit :=
  printSegments line segments;; io_write [x0a].

Definition usage (prog : string) : string :=
  "Usage: " +:+ prog +:+ " <-<COLOOR>=<PATTERN> |-<COLOR>=<PATTERN> ...] [FILE]".

Definition run `{RegexEngine} : reader -> exprsMap -> io (option error) :=
  Driver.run makeColorizedSegments printColorized.

Definition main `{RegexEngine} `{OS} : list string -> io unit :=
  Driver.main makeColorizedSegments printColorized usage.

End Closed.

(** ** A sample environment

    An engine for the patterns that are non-empty words of letters, digits
    and underscores, which match themselves; it rejects every other pattern.
    It serves to evaluate the program on concrete inputs. *)

Fixpoint isPrefix (p l : list byte) : bool :=
  match p, l with
  | [], _ => true
  | a :: p', b :: l' => Byte.eqb a b && isPrefix p' l'
  | _ :: _, [] => false
  end.

(** The occurrences of [p] in [l], leftmost first and not overlapping; [i] is
    the position of the head of [l], and [skip] counts the bytes of the last
    occurrence still to be passed. *)
Fixpoint literalMatches (p l : list byte) (i : Z) (skip : nat)
  : list (Z * Z) :=
  match l with
  | [] => []
  | _ :: l' =>
      match skip with
      | S k => literalMatches p l' (i + 1) k
      | O =>
          if isPrefix p l
          then (i, i + Z.of_nat (length p))
                 :: literalMatches p l' (i + 1) (length p - 1)%nat
          else literalMatches p l' (i + 1) O
      end
  end.

Fixpoint allWord (s : string) : bool :=
  match s with
  | EmptyString => true
  | String a s' => isWord a && allWord s'
  end.

Definition literalEngine : RegexEngine := {|
  Regexp := list byte;
  Compile p :=
    match p with
    | EmptyString => None
    | _ => if allWord p then Some (bytes p) else None
    end;
  FindAllSubmatchIndex p line := literalMatches p line 0 O
|}.

(** A file system with the single file [name], whose content is [r]. *)
Definition oneFile (name : string) (r : reader) (stdin : reader) : OS := {|
  Open path :=
    if String.eqb path name then inr r
    else inl (Err ("open " +:+ path +:+ ": no such file or directory"));
  Stdin := stdin
|}.

(** * The vocabulary of the properties *)

(** The spans that contain position [i], in the order of [matches]. *)
Definition covering (matches : list segment) (i : Z) : list segment :=
  List.filter (fun m => contains m i) matches.

(** [chain lo segs hi]: the half-open ranges of [segs] follow one another
    from [lo] to [hi]. *)
Fixpoint chain (lo : Z) (segs : list segment) (hi : Z) : Prop :=
  match segs with
  | [] => lo = hi
  | s :: rest => seg_begin s = lo /\ lo <= seg_end s /\ chain (seg_end s) rest hi
  end.

(** Every position of the half-open range of [s] has the colour of [s]. *)
Definition colored (matches : list segment) (s : segment) : Prop :=
  forall j, seg_begin s <= j < seg_end s -> colorOf matches j = seg_c s.

(** What holds of the variables [segments] and [segment] of
    [makeColorizedSegments] before iteration [i]. *)
Definition loopInv (matches : list segment) (i : Z)
    (st : list segment * segment) : Prop :=
  let '(segments, cur) := st in
  chain 0 segments (seg_begin cur) /\
  seg_begin cur <= seg_end cur /\ seg_end cur = i /\
  Forall (colored matches) segments /\ colored matches cur.

(** The closed span of the positions of a half-open segment. *)
Definition closeRange (s : segment) : segment :=
  newSegment (seg_begin s) (seg_end s - 1) (seg_c s).

(** The positions of the line that the renderer of [bling.go] prints for a
    segment, [line[begin:end]].  The renderer of the variant prints
    [line[begin:end+1]], the positions that [contains] accepts. *)
Definition halfOpen (s : segment) (i : Z) : bool :=
  (seg_begin s <=? i) && (i <? seg_end s).

(** [fullCoverage covers N segs]: the ranges of [segs] make up exactly the
    positions from 0 to [N - 1]; the positions of an earlier segment come
    before the positions of a later one; no position belongs to two
    segments. *)
Definition fullCoverage (covers : segment -> Z -> bool) (N : Z)
    (segs : list segment) : Prop :=
  (forall i, 0 <= i < N <-> exists s, In s segs /\ covers s i = true) /\
  (forall (j k : nat) sj sk a b, (j < k)%nat ->
     segs !! j = Some sj -> segs !! k = Some sk ->
     covers sj a = true -> covers sk b = true -> a < b) /\
  (forall (j k : nat) sj sk i,
     segs !! j = Some sj -> segs !! k = Some sk ->
     covers sj i = true -> covers sk i = true -> j = k).

(** The segment of [segs] to which position [i] belongs, and its colour. *)
Definition segmentAt (covers : segment -> Z -> bool) (segs : list segment)
    (i : Z) : option segment :=
  List.find (fun s => covers s i) segs.

Definition colorAt (covers : segment -> Z -> bool) (segs : list segment)
    (i : Z) : option color :=
  seg_c <$> segmentAt covers segs i.

(** What the renderer writes for a segment whose text is [t]. *)
Definition wrap (s : segment) (t : list byte) : list byte :=
  colors_at (seg_c s) ++ t ++ colors_at RESET.

(** [textPreserved sliceOf out line segs]: the renderer found a text for
    every segment, wrote the wrapped texts in order and a line feed, and the
    texts alone make up the line. *)
Definition textPreserved (sliceOf : segment -> option (list byte))
    (out : io unit) (line : list byte) (segs : list segment) : Prop :=
  exists texts,
    Forall2 (fun s t => sliceOf s = Some t) segs texts /\
    out = io_write (mjoin (zip_with wrap segs texts) ++ [x0a]) /\
    mjoin texts = line.

(** The error that [run] returns for a reader: [nil] at a clean end of
    input, the read error otherwise. *)
Definition finalError (r : reader) : option error :=
  match rd_err r with
  | EOF => None
  | e => Some e
  end.

(** An argument at index [idx] of [n] that makes [parseArgs] fail. *)
Definition rejected `{RegexEngine} `{OS} (n idx : Z) (arg : string) : Prop :=
  match reFindStringSubmatch arg with
  | [_; col; pattern] => colors !! col = None \/ Compile pattern = None
  | _ => idx <> n - 1 \/ exists err, Open arg = inl err
  end.

(** The second half of C2 as the specification words it: at a position that
    two spans of different colours contain, the colour of the output is
    [overlap] and is neither of the two colours. *)
Definition overlapNeverOriginal : Prop :=
  forall (line : list byte) (matches : list segment) (i : Z) (m1 m2 : segment),
    0 <= i < Z.of_nat (length line) ->
    In m1 (covering matches i) -> In m2 (covering matches i) ->
    seg_c m1 <> seg_c m2 ->
    let col := colorAt halfOpen (Bling.makeColorizedSegments line matches) i in
    col = Some OVERLAP /\ col <> Some (seg_c m1) /\ col <> Some (seg_c m2).

(** The claim C8 on [bling.go], as the specification words it: the output of
    the segmenter, given back to it as the spans, comes out unchanged. *)
Definition outputIsFixedPoint
    (segmenter : list byte -> list segment -> list segment) : Prop :=
  forall (line : list byte) (matches : list segment),
    segmenter line (segmenter line matches) = segmenter line matches.

(** ** More of the code, and the vocabulary of its properties *)

(** [partition]: the spans sorted by [begin] with [sort.Slice]; the function
    is not called by [main]. *)
Definition partition (segments : list segment) : list segment :=
  sortByBegin segments.

(** The variable [reset], which only [colorize] uses. *)
Definition reset : list byte := esc "[m".

(** [colorize] of the closed-range variant, where the entries of [colors] are
    strings; it is not called by [main].  [None] is the panic. *)
Definition colorize (c : color) (s : list byte) : option (list byte) :=
  match colors_at c with
  | [] => None
  | code => Some (code ++ s ++ reset)
  end.

(** A segment with at least one position, as half-open range. *)
Definition nonEmpty (s : segment) : Prop := seg_begin s < seg_end s.

(** Neighbours in [segs] have different colours. *)
Definition adjacentDistinct (segs : list segment) : Prop :=
  forall l1 s t l2, segs = l1 ++ s :: t :: l2 -> seg_c s <> seg_c t.

(** The shape of the output of the segmenter of [bling.go]: a first segment
    of colour [reset] that begins at 0, then segments that are not empty. *)
Definition outputShape (segs : list segment) : Prop :=
  exists first rest,
    segs = first :: rest /\ seg_begin first = 0 /\ seg_c first = RESET /\
    Forall nonEmpty rest.

(** The number of line feeds of a byte sequence. *)
Definition countLines (l : list byte) : nat :=
  length (List.filter (fun b => Byte.eqb b x0a) l).

(** The expressions that the bindings of colour [col] in [args] compile to,
    in the order of the arguments. *)
Definition bindingsOf `{RegexEngine} (col : color) (args : list string)
  : list Regexp :=
  flat_map (fun arg =>
              match reFindStringSubmatch arg with
              | [_; c; pattern] =>
                  if String.eqb c col
                  then match Compile pattern with
                       | Some expr => [expr]
                       | None => []
                       end
                  else []
              | _ => []
              end) args.

(** * Properties *)

(** ** The colour of a position *)

Lemma scanMatches_found matches i c :
  scanMatches matches i c 1 =
    match covering matches i with [] => c | _ => OVERLAP end.
Proof.
  induction matches as [|m rest IH]; simpl; [reflexivity|].
  destruct (contains m i); simpl; [reflexivity | exact IH].
Qed.

(** The inner loop computes the counting rule: no span, one span, more. *)
Lemma colorOf_covering matches i :
  colorOf matches i =
    match covering matches i with
    | [] => RESET
    | [m] => seg_c m
    | _ => OVERLAP
    end.
Proof.
  unfold colorOf. generalize RESET as c.
  induction matches as [|m rest IH]; intros c; simpl; [reflexivity|].
  destruct (contains m i); simpl; [|apply IH].
  rewrite scanMatches_found. destruct (covering rest i); reflexivity.
Qed.

Lemma covering_Permutation ms1 ms2 i :
  Permutation ms1 ms2 -> Permutation (covering ms1 i) (covering ms2 i).
Proof.
  unfold covering. induction 1; simpl.
  - constructor.
  - destruct (contains x i); [constructor|]; assumption.
  - destruct (contains x i), (contains y i); try constructor;
      try reflexivity.
  - etransitivity; eassumption.
Qed.

(** The colour of a position does not depend on the order of the spans, so
    neither the order of [range exprs] nor the sort matters to the
    segmenter. *)
Lemma colorOf_Permutation ms1 ms2 i :
  Permutation ms1 ms2 -> colorOf ms1 i = colorOf ms2 i.
Proof.
  intros HP. rewrite !colorOf_covering.
  apply (covering_Permutation _ _ i) in HP.
  destruct (covering ms1 i) as [|a [|b l]].
  - apply Permutation_nil_l in HP. rewrite <- HP. reflexivity.
  - apply Permutation_singleton_l in HP. rewrite <- HP. reflexivity.
  - pose proof (Permutation_length HP) as HL.
    destruct (covering ms2 i) as [|a' [|b' l']]; simpl in HL;
      try discriminate; reflexivity.
Qed.

(** ** The shape of the segmenter's output *)

Lemma chain_le lo segs hi : chain lo segs hi -> lo <= hi.
Proof.
  revert lo; induction segs as [|s rest IH]; simpl; intros lo.
  - lia.
  - intros (_ & Hle & Hc). apply IH in Hc. lia.
Qed.

Lemma chain_snoc lo segs s :
  chain lo segs (seg_begin s) -> seg_begin s <= seg_end s ->
  chain lo (segs ++ [s]) (seg_end s).
Proof.
  revert lo; induction segs as [|a rest IH]; simpl; intros lo.
  - intros -> Hle. auto.
  - intros (Hb & Hle & Hc) Hs. auto.
Qed.

Lemma chain_In lo segs hi s :
  chain lo segs hi -> In s segs ->
  lo <= seg_begin s /\ seg_begin s <= seg_end s /\ seg_end s <= hi.
Proof.
  revert lo; induction segs as [|a rest IH]; simpl; intros lo Hc; [tauto|].
  destruct Hc as (Hb & Hle & Hc). intros [->|Hin].
  - apply chain_le in Hc. lia.
  - destruct (IH _ Hc Hin) as (? & ? & ?). lia.
Qed.

Section SegmenterInvariant.
Variable matches : list segment.
Let loopInv := loopInv matches.

Lemma segmentLoop_inv n i segments cur :
  loopInv i (segments, cur) ->
  loopInv (i + Z.of_nat n) (Bling.segmentLoop n i matches segments cur).
Proof.
  revert i segments cur.
  induction n as [|n IH]; intros i segments cur Hinv.
  - replace (i + Z.of_nat 0) with i by lia. exact Hinv.
  - cbn [Bling.segmentLoop].
    replace (i + Z.of_nat (S n)) with (i + 1 + Z.of_nat n) by lia.
    destruct Hinv as (Hch & Hle & Hend & Hall & Hcur).
    destruct (String.eqb_spec (seg_c cur) (colorOf matches i)) as [Heq|Hne];
      apply IH; unfold loopInv.
    + simpl. repeat split; try lia; try assumption.
      intros j Hj. simpl in *.
      destruct (Z.eq_dec j i) as [->|Hji]; [congruence|].
      apply Hcur. lia.
    + simpl. repeat split; try lia.
      * subst i. apply chain_snoc; assumption.
      * apply Forall_app. split; [assumption|]. repeat constructor.
        assumption.
      * intros j Hj. simpl in *. replace j with i by lia. reflexivity.
Qed.

Lemma makeColorizedSegments_chain (line : list byte) :
  let segs := Bling.makeColorizedSegments line matches in
  chain 0 segs (Z.of_nat (length line)) /\ Forall (colored matches) segs.
Proof.
  unfold Bling.makeColorizedSegments.
  assert (loopInv 0 ([], newSegment 0 0 RESET)) as H0.
  { simpl. repeat split; try lia; try constructor. intros j Hj. simpl in Hj. lia. }
  apply (segmentLoop_inv (length line)) in H0. rewrite Z.add_0_l in H0.
  destruct (Bling.segmentLoop _ _ _ _ _) as [segments cur].
  destruct H0 as (Hch & Hle & Hend & Hall & Hcur). split.
  - rewrite <- Hend. apply chain_snoc; assumption.
  - apply Forall_app. split; [assumption|]. repeat constructor. assumption.
Qed.

End SegmenterInvariant.

(** The segmenter reads the spans through [colorOf] only. *)
Lemma segmentLoop_ext m1 m2 n i segments cur :
  (forall j, i <= j < i + Z.of_nat n -> colorOf m1 j = colorOf m2 j) ->
  Bling.segmentLoop n i m1 segments cur = Bling.segmentLoop n i m2 segments cur.
Proof.
  revert i segments cur.
  induction n as [|n IH]; intros i segments cur Hext; [reflexivity|].
  cbn [Bling.segmentLoop]. rewrite <- (Hext i) by lia.
  destruct (String.eqb _ _); apply IH; intros j Hj; apply Hext; lia.
Qed.

Lemma makeColorizedSegments_ext (line : list byte) m1 m2 :
  (forall j, 0 <= j < Z.of_nat (length line) -> colorOf m1 j = colorOf m2 j) ->
  Bling.makeColorizedSegments line m1 = Bling.makeColorizedSegments line m2.
Proof.
  intros Hext. unfold Bling.makeColorizedSegments.
  rewrite (segmentLoop_ext m1 m2); [reflexivity|].
  intros j Hj. apply Hext. lia.
Qed.

Lemma makeColorizedSegments_Permutation (line : list byte) m1 m2 :
  Permutation m1 m2 ->
  Bling.makeColorizedSegments line m1 = Bling.makeColorizedSegments line m2.
Proof.
  intros HP. apply makeColorizedSegments_ext.
  intros j _. apply colorOf_Permutation. exact HP.
Qed.

(** ** The two copies of the segmenter

    The closed ranges of the variant are the half-open ranges of [bling.go]
    with the end moved back by one. *)

Lemma Closed_segmentLoop n i matches segments cur :
  Closed.segmentLoop n i matches (closeRange <$> segments) (closeRange cur) =
    let '(segments', cur') := Bling.segmentLoop n i matches segments cur in
    (closeRange <$> segments', closeRange cur').
Proof.
  revert i segments cur.
  induction n as [|n IH]; intros i segments cur; [reflexivity|].
  cbn [Closed.segmentLoop Bling.segmentLoop]. simpl seg_c.
  destruct (String.eqb _ _).
  - rewrite <- IH. f_equal. unfold closeRange, incr_end. simpl. f_equal. lia.
  - rewrite <- IH. rewrite fmap_app. simpl. f_equal.
    unfold closeRange. simpl. f_equal. lia.
Qed.

Lemma Closed_makeColorizedSegments (line : list byte) matches :
  Closed.makeColorizedSegments line matches =
    closeRange <$> Bling.makeColorizedSegments line matches.
Proof.
  unfold Closed.makeColorizedSegments, Bling.makeColorizedSegments.
  change (newSegment 0 (-1) RESET) with (closeRange (newSegment 0 0 RESET)).
  change (@nil segment) with (closeRange <$> @nil segment) at 1.
  rewrite Closed_segmentLoop.
  destruct (Bling.segmentLoop _ _ _ _ _) as [segments cur].
  rewrite fmap_app. reflexivity.
Qed.

(** ** Positions and segments *)

Lemma halfOpen_spec s i :
  halfOpen s i = true <-> seg_begin s <= i < seg_end s.
Proof. unfold halfOpen. rewrite andb_true_iff. lia. Qed.

Lemma contains_closeRange s i : contains (closeRange s) i = halfOpen s i.
Proof. unfold contains, halfOpen, closeRange. simpl. f_equal. lia. Qed.

Lemma chain_before lo segs hi i :
  chain lo segs hi -> i < lo ->
  List.filter (fun s => halfOpen s i) segs = [].
Proof.
  revert lo; induction segs as [|s rest IH]; simpl; intros lo Hc Hi;
    [reflexivity|].
  destruct Hc as (Hb & Hle & Hc).
  destruct (halfOpen s i) eqn:E.
  - apply halfOpen_spec in E. lia.
  - apply (IH _ Hc). lia.
Qed.

(** One segment of a chain, and only one, has a given position. *)
Lemma chain_filter lo segs hi i :
  chain lo segs hi -> lo <= i < hi ->
  exists s, List.filter (fun s => halfOpen s i) segs = [s] /\
            In s segs /\ seg_begin s <= i < seg_end s.
Proof.
  revert lo; induction segs as [|s rest IH]; simpl; intros lo Hc Hi; [lia|].
  destruct Hc as (Hb & Hle & Hc).
  destruct (halfOpen s i) eqn:E.
  - apply halfOpen_spec in E. exists s.
    rewrite (chain_before _ _ _ _ Hc) by lia. auto.
  - assert (seg_end s <= i) as Hge.
    { destruct (Z.lt_ge_cases i (seg_end s)) as [Hlt|]; [|assumption].
      assert (halfOpen s i = true) by (apply halfOpen_spec; lia). congruence. }
    destruct (IH _ Hc) as (s' & Hf & Hin & Hr); [lia|].
    exists s'. auto.
Qed.

Lemma find_filter {A} (f : A -> bool) (l : list A) :
  List.find f l = head (List.filter f l).
Proof.
  induction l as [|a l IH]; simpl; [reflexivity|].
  destruct (f a); [reflexivity | exact IH].
Qed.

Lemma chain_ordered lo segs hi (j k : nat) sj sk :
  chain lo segs hi -> (j < k)%nat ->
  segs !! j = Some sj -> segs !! k = Some sk -> seg_end sj <= seg_begin sk.
Proof.
  revert lo j k; induction segs as [|s rest IH]; intros lo j k Hc Hjk Hj Hk.
  - discriminate.
  - destruct Hc as (Hb & Hle & Hc).
    destruct k as [|k]; [lia|]. simpl in Hk.
    destruct j as [|j]; simpl in Hj.
    + injection Hj as ->.
      apply list_elem_of_lookup_2, list_elem_of_In in Hk.
      destruct (chain_In _ _ _ _ Hc Hk) as (? & _). assumption.
    + apply (IH _ j k Hc); [lia | assumption | assumption].
Qed.

Lemma chain_fullCoverage segs N :
  chain 0 segs N -> fullCoverage halfOpen N segs.
Proof.
  intros Hc.
  assert (forall (j k : nat) sj sk a b, (j < k)%nat ->
    segs !! j = Some sj -> segs !! k = Some sk ->
    halfOpen sj a = true -> halfOpen sk b = true -> a < b) as Hord.
  { intros j k sj sk a b Hjk Hj Hk Ha Hb.
    pose proof (chain_ordered _ _ _ _ _ _ _ Hc Hjk Hj Hk).
    apply halfOpen_spec in Ha, Hb. lia. }
  split; [|split].
  - intros i. split.
    + intros Hi. destruct (chain_filter _ _ _ i Hc Hi) as (s & _ & Hin & Hr).
      exists s. split; [assumption|]. apply halfOpen_spec. assumption.
    + intros (s & Hin & Hs). apply halfOpen_spec in Hs.
      destruct (chain_In _ _ _ _ Hc Hin) as (? & ? & ?). lia.
  - exact Hord.
  - intros j k sj sk i Hj Hk Hcj Hck.
    destruct (Nat.lt_trichotomy j k) as [Hlt|[Heq|Hgt]]; [|assumption|].
    + pose proof (Hord _ _ _ _ _ _ Hlt Hj Hk Hcj Hck). lia.
    + pose proof (Hord _ _ _ _ _ _ Hgt Hk Hj Hck Hcj). lia.
Qed.

Lemma fullCoverage_closeRange segs N :
  fullCoverage halfOpen N segs ->
  fullCoverage contains N (closeRange <$> segs).
Proof.
  intros (Hcov & Hord & Huniq). split; [|split].
  - intros i. rewrite Hcov. split.
    + intros (s & Hin & Hs). exists (closeRange s). split.
      * apply in_map. assumption.
      * rewrite contains_closeRange. assumption.
    + intros (s' & Hin & Hs). apply in_map_iff in Hin.
      destruct Hin as (s & <- & Hin). exists s.
      rewrite contains_closeRange in Hs. auto.
  - intros j k sj sk a b Hjk Hj Hk Ha Hb.
    rewrite list_lookup_fmap in Hj, Hk.
    destruct (segs !! j) as [tj|] eqn:Ej; [|discriminate].
    destruct (segs !! k) as [tk|] eqn:Ek; [|discriminate].
    simpl in Hj, Hk. injection Hj as <-. injection Hk as <-.
    rewrite contains_closeRange in Ha, Hb. eapply Hord; eassumption.
  - intros j k sj sk i Hj Hk Ha Hb.
    rewrite list_lookup_fmap in Hj, Hk.
    destruct (segs !! j) as [tj|] eqn:Ej; [|discriminate].
    destruct (segs !! k) as [tk|] eqn:Ek; [|discriminate].
    simpl in Hj, Hk. injection Hj as <-. injection Hk as <-.
    rewrite contains_closeRange in Ha, Hb. eapply Huniq; eassumption.
Qed.

(** The position [i] of the line lies in one segment of the output, and the
    colour of that segment is [colorOf matches i]. *)
Lemma colorAt_Bling (line : list byte) matches i :
  0 <= i < Z.of_nat (length line) ->
  colorAt halfOpen (Bling.makeColorizedSegments line matches) i =
    Some (colorOf matches i).
Proof.
  intros Hi. destruct (makeColorizedSegments_chain matches line) as [Hc Hall].
  destruct (chain_filter _ _ _ i Hc Hi) as (s & Hf & Hin & Hr).
  unfold colorAt, segmentAt. rewrite find_filter, Hf. simpl.
  rewrite Forall_forall in Hall. f_equal. symmetry. apply Hall.
  - apply list_elem_of_In. assumption.
  - assumption.
Qed.

Lemma filter_fmap_closeRange segs i :
  List.filter (fun s => contains s i) (closeRange <$> segs) =
    closeRange <$> List.filter (fun s => halfOpen s i) segs.
Proof.
  induction segs as [|s rest IH]; [reflexivity|].
  rewrite fmap_cons. cbn [List.filter]. rewrite contains_closeRange, IH.
  destruct (halfOpen s i); reflexivity.
Qed.

Lemma colorAt_Closed (line : list byte) matches i :
  0 <= i < Z.of_nat (length line) ->
  colorAt contains (Closed.makeColorizedSegments line matches) i =
    Some (colorOf matches i).
Proof.
  intros Hi. rewrite <- (colorAt_Bling line matches i Hi).
  rewrite Closed_makeColorizedSegments.
  unfold colorAt, segmentAt. rewrite !find_filter, filter_fmap_closeRange.
  destruct (List.filter _ _); reflexivity.
Qed.

(** Read as spans, the segments of the output give every position of the
    line the colour it had. *)
Lemma colorOf_output (line : list byte) matches i :
  0 <= i < Z.of_nat (length line) ->
  colorOf (closeRange <$> Bling.makeColorizedSegments line matches) i =
    colorOf matches i.
Proof.
  intros Hi. destruct (makeColorizedSegments_chain matches line) as [Hc Hall].
  destruct (chain_filter _ _ _ i Hc Hi) as (s & Hf & Hin & Hr).
  rewrite colorOf_covering. unfold covering.
  rewrite filter_fmap_closeRange, Hf. simpl.
  rewrite Forall_forall in Hall. symmetry. apply Hall.
  - apply list_elem_of_In. assumption.
  - assumption.
Qed.

(** ** The renderer *)

Lemma slice_Some (line : list byte) lo hi :
  0 <= lo <= hi -> hi <= Z.of_nat (length line) ->
  slice line lo hi =
    Some (take (Z.to_nat (hi - lo)) (drop (Z.to_nat lo) line)).
Proof.
  intros H1 H2. unfold slice.
  replace (0 <=? lo) with true by (symmetry; apply Z.leb_le; lia).
  replace (lo <=? hi) with true by (symmetry; apply Z.leb_le; lia).
  replace (hi <=? Z.of_nat (length line)) with true
    by (symmetry; apply Z.leb_le; lia).
  reflexivity.
Qed.

(** The texts of a chain of segments are consecutive pieces of the line. *)
Lemma chain_slices (line : list byte) lo segs hi :
  chain lo segs hi -> 0 <= lo -> hi <= Z.of_nat (length line) ->
  exists texts,
    Forall2 (fun s t => slice line (seg_begin s) (seg_end s) = Some t)
      segs texts /\
    mjoin texts = take (Z.to_nat (hi - lo)) (drop (Z.to_nat lo) line).
Proof.
  revert lo; induction segs as [|s rest IH]; simpl; intros lo Hc Hlo Hhi.
  - exists []. split; [constructor|]. subst hi.
    rewrite Z.sub_diag. reflexivity.
  - destruct Hc as (Hb & Hle & Hc). pose proof (chain_le _ _ _ Hc) as Hle'.
    destruct (IH _ Hc) as (texts & HF & Hj); [lia | lia |].
    exists (take (Z.to_nat (seg_end s - lo)) (drop (Z.to_nat lo) line)
              :: texts).
    split.
    + constructor; [|assumption]. rewrite Hb. apply slice_Some; lia.
    + simpl. rewrite Hj.
      replace (Z.to_nat (seg_end s))
        with (Z.to_nat lo + Z.to_nat (seg_end s - lo))%nat by lia.
      rewrite <- drop_drop, take_take_drop. f_equal. lia.
Qed.

Lemma buildLine_texts (line : list byte) segs texts b :
  Forall2 (fun s t => slice line (seg_begin s) (seg_end s) = Some t)
    segs texts ->
  Bling.buildLine line segs b = Some (b ++ mjoin (zip_with wrap segs texts)).
Proof.
  intros HF. revert b. induction HF as [|s t segs texts Hs HF IH]; intros b.
  - simpl. rewrite app_nil_r. reflexivity.
  - simpl. rewrite Hs, IH. unfold wrap. rewrite <- !app_assoc. reflexivity.
Qed.

Lemma printSegments_texts (line : list byte) segs texts :
  Forall2 (fun s t => slice line (seg_begin s) (seg_end s + 1) = Some t)
    segs texts ->
  Closed.printSegments line segs =
    io_write (mjoin (zip_with wrap segs texts)).
Proof.
  induction 1 as [|s t segs texts Hs HF IH]; [reflexivity|].
  simpl. rewrite Hs, IH. reflexivity.
Qed.

Lemma textPreserved_Bling (line : list byte) matches :
  let segs := Bling.makeColorizedSegments line matches in
  textPreserved (fun s => slice line (seg_begin s) (seg_end s))
    (Bling.printColorized line segs) line segs.
Proof.
  intros segs. destruct (makeColorizedSegments_chain matches line) as [Hc _].
  fold segs in Hc.
  destruct (chain_slices line _ _ _ Hc) as (texts & HF & Hj); [lia | lia |].
  exists texts. split; [assumption|]. split.
  - unfold Bling.printColorized.
    rewrite (buildLine_texts _ _ _ _ HF). reflexivity.
  - rewrite Hj, drop_0, Z.sub_0_r, Nat2Z.id. apply take_ge. lia.
Qed.

Lemma slices_closeRange (line : list byte) segs texts :
  Forall2 (fun s t => slice line (seg_begin s) (seg_end s) = Some t)
    segs texts ->
  Forall2 (fun s t => slice line (seg_begin s) (seg_end s + 1) = Some t)
    (closeRange <$> segs) texts.
Proof.
  induction 1 as [|s t segs texts Hs HF IH]; [constructor|].
  rewrite fmap_cons. constructor; [|assumption].
  simpl. replace (seg_end s - 1 + 1) with (seg_end s) by lia. assumption.
Qed.

Lemma wrap_closeRange segs texts :
  zip_with wrap (closeRange <$> segs) texts = zip_with wrap segs texts.
Proof.
  revert texts; induction segs as [|s rest IH]; intros [|t texts];
    try reflexivity.
  rewrite fmap_cons. simpl. rewrite IH. reflexivity.
Qed.

Lemma textPreserved_Closed (line : list byte) matches :
  let segs := Closed.makeColorizedSegments line matches in
  textPreserved (fun s => slice line (seg_begin s) (seg_end s + 1))
    (Closed.printColorized line segs) line segs.
Proof.
  intros segs. unfold segs. rewrite Closed_makeColorizedSegments.
  destruct (textPreserved_Bling line matches) as (texts & HF & _ & Hj).
  exists texts. split; [apply slices_closeRange; assumption|].
  split; [|assumption].
  unfold Closed.printColorized.
  rewrite (printSegments_texts _ _ _ (slices_closeRange _ _ _ HF)).
  rewrite wrap_closeRange. reflexivity.
Qed.

(** ** The line driver *)

Lemma splitDelim_Some d l h t :
  splitDelim d l = Some (h, t) ->
  l = h ++ t /\ last h = Some d /\ (length t < length l)%nat.
Proof.
  revert h t; induction l as [|b l IH]; simpl; intros h t; [discriminate|].
  destruct (Byte.eqb b d) eqn:E.
  - intros [= <- <-]. apply Byte.byte_dec_bl in E. subst b. simpl. auto.
  - destruct (splitDelim d l) as [[h' t']|]; [|discriminate].
    intros [= <- <-]. destruct (IH _ _ eq_refl) as (-> & Hl & Hlen).
    split; [reflexivity|]. split; [|simpl; lia].
    destruct h'; [discriminate | exact Hl].
Qed.

Lemma splitDelim_app_Some d l k h t :
  splitDelim d l = Some (h, t) -> splitDelim d (l ++ k) = Some (h, t ++ k).
Proof.
  revert h t; induction l as [|b l IH]; simpl; intros h t; [discriminate|].
  destruct (Byte.eqb b d).
  - intros [= <- <-]. reflexivity.
  - destruct (splitDelim d l) as [[h' t']|]; [|discriminate].
    intros [= <- <-]. rewrite (IH _ _ eq_refl). reflexivity.
Qed.

Lemma splitDelim_app_None d l k :
  splitDelim d l = None -> splitDelim d k = None ->
  splitDelim d (l ++ k) = None.
Proof.
  intros Hl Hk. induction l as [|b l IH]; simpl in *; [assumption|].
  destruct (Byte.eqb b d); [discriminate|].
  destruct (splitDelim d l) as [[h t]|]; [discriminate|].
  rewrite IH; reflexivity.
Qed.

Section DriverFacts.
Context `{RegexEngine}.
Variable makeColorizedSegments : list byte -> list segment -> list segment.
Variable printColorized : list byte -> list segment -> io unit.
Hypothesis printColorized_writes : forall line matches,
  exists out,
    printColorized line (makeColorizedSegments line matches) = io_write out.

(** [run] returns, whatever the input: the loop neither panics nor needs
    more iterations than the input has bytes. *)
Lemma runLoop_returns fuel br exprs :
  (length (rd_data br) < fuel)%nat ->
  exists out,
    Driver.runLoop makeColorizedSegments printColorized fuel br exprs =
      (out, Ret (finalError br)).
Proof.
  revert br; induction fuel as [|fuel IH]; intros br Hlen; [lia|].
  cbn [Driver.runLoop]. unfold ReadBytes.
  destruct (splitDelim x0a (rd_data br)) as [[ln rest]|] eqn:E.
  - destruct (splitDelim_Some _ _ _ _ E) as (Hd & Hlast & Hlt).
    rewrite Hlast.
    destruct (printColorized_writes
                (if Byte.eqb x0a x0a then take (length ln - 1)%nat ln else ln)
                (findMatchingSegments
                   (if Byte.eqb x0a x0a then take (length ln - 1)%nat ln
                    else ln) exprs)) as (out & ->).
    destruct (IH (mkReader rest (rd_err br))) as (out' & ->);
      [simpl; lia|].
    exists (out ++ out'). reflexivity.
  - exists []. unfold finalError. destruct (rd_err br); reflexivity.
Qed.

Lemma run_returns r exprs :
  exists out,
    Driver.run makeColorizedSegments printColorized r exprs =
      (out, Ret (finalError r)).
Proof. apply runLoop_returns. lia. Qed.

(** The loop does the same with any two amounts of fuel that exceed the
    number of bytes to read. *)
Lemma runLoop_fuel f1 f2 br exprs :
  (length (rd_data br) < f1)%nat -> (length (rd_data br) < f2)%nat ->
  Driver.runLoop makeColorizedSegments printColorized f1 br exprs =
  Driver.runLoop makeColorizedSegments printColorized f2 br exprs.
Proof.
  revert f2 br; induction f1 as [|f1 IH]; intros f2 br H1 H2; [lia|].
  destruct f2 as [|f2]; [lia|].
  cbn [Driver.runLoop]. unfold ReadBytes.
  destruct (splitDelim x0a (rd_data br)) as [[ln rest]|] eqn:E;
    [|reflexivity].
  destruct (splitDelim_Some _ _ _ _ E) as (_ & _ & Hlt).
  destruct (last ln); [|reflexivity].
  rewrite (IH f2 (mkReader rest (rd_err br))) by (simpl; lia).
  reflexivity.
Qed.

(** The bytes that follow the last line feed of the input never reach the
    matcher: with or without them, [run] does the same. *)
Lemma runLoop_tail fuel data tail err exprs :
  splitDelim x0a tail = None ->
  Driver.runLoop makeColorizedSegments printColorized fuel
    (mkReader (data ++ tail) err) exprs =
  Driver.runLoop makeColorizedSegments printColorized fuel
    (mkReader data err) exprs.
Proof.
  intros Htail. revert data; induction fuel as [|fuel IH]; intros data;
    [reflexivity|].
  cbn [Driver.runLoop]. unfold ReadBytes. cbn [rd_data rd_err].
  destruct (splitDelim x0a data) as [[ln rest]|] eqn:E.
  - rewrite (splitDelim_app_Some _ _ _ _ _ E).
    destruct (last ln); [|reflexivity]. rewrite IH. reflexivity.
  - rewrite (splitDelim_app_None _ _ _ E Htail). reflexivity.
Qed.

Lemma run_tail data tail err exprs :
  splitDelim x0a tail = None ->
  Driver.run makeColorizedSegments printColorized
    (mkReader (data ++ tail) err) exprs =
  Driver.run makeColorizedSegments printColorized (mkReader data err) exprs.
Proof.
  intros Htail. unfold Driver.run. rewrite runLoop_tail by assumption.
  apply runLoop_fuel; cbn [rd_data]; rewrite ?length_app; lia.
Qed.

(** A reader that holds no line feed gives no output: the data that comes
    with the error is dropped. *)
Lemma run_unterminated r exprs :
  splitDelim x0a (rd_data r) = None ->
  Driver.run makeColorizedSegments printColorized r exprs =
    ([], Ret (finalError r)).
Proof.
  intros E. unfold Driver.run. cbn [Driver.runLoop]. unfold ReadBytes.
  rewrite E. unfold finalError. destruct (rd_err r); reflexivity.
Qed.

End DriverFacts.

Lemma Bling_printColorized_writes (line : list byte) matches :
  exists out,
    Bling.printColorized line (Bling.makeColorizedSegments line matches) =
      io_write out.
Proof.
  destruct (textPreserved_Bling line matches) as (texts & _ & -> & _).
  eexists. reflexivity.
Qed.

Lemma Closed_printColorized_writes (line : list byte) matches :
  exists out,
    Closed.printColorized line (Closed.makeColorizedSegments line matches) =
      io_write out.
Proof.
  destruct (textPreserved_Closed line matches) as (texts & _ & -> & _).
  eexists. reflexivity.
Qed.

(** Once [parseArgs] has accepted the arguments, [main] returns normally,
    whatever [run] returned. *)
Lemma main_returns `{RegexEngine} `{OS}
    (mk : list byte -> list segment -> list segment)
    (pr : list byte -> list segment -> io unit) (usage : string -> string)
    prog args exprs file :
  (forall line matches, exists out, pr line (mk line matches) = io_write out) ->
  args <> [] -> parseArgs args = inr (exprs, file) ->
  exists out,
    Driver.run mk pr file exprs = (out, Ret (finalError file)) /\
    Driver.main mk pr usage (prog :: args) = (out, Ret tt).
Proof.
  intros Hpr Hne Hparse.
  destruct (run_returns mk pr Hpr file exprs) as (out & Hrun).
  exists out. split; [assumption|].
  destruct args as [|a args]; [contradiction|].
  unfold Driver.main. rewrite Hparse, Hrun. cbn. rewrite app_nil_r.
  reflexivity.
Qed.

(** ** Argument parsing *)

Lemma reFindStringSubmatch_cases arg :
  reFindStringSubmatch arg = [] \/
  exists m col pattern, reFindStringSubmatch arg = [m; col; pattern].
Proof.
  unfold reFindStringSubmatch.
  destruct arg as [|a s]; [left; reflexivity|].
  destruct (Ascii.ascii_dec a "-") as [->|Hne].
  - destruct (spanWord s) as [[|w0 w] [|b r]]; try (left; reflexivity).
    destruct (Ascii.ascii_dec b "=") as [->|Hne].
    + right. eauto.
    + left. destruct b as [[] [] [] [] [] [] [] []]; try reflexivity.
      contradiction Hne. reflexivity.
  - left. destruct a as [[] [] [] [] [] [] [] []]; try reflexivity.
    contradiction Hne. reflexivity.
Qed.

Section ArgsFacts.
Context `{RegexEngine} `{OS}.

Lemma parseLoop_rejected args i n exprs :
  i + Z.of_nat (length args) = n ->
  (exists (k : nat) arg,
     args !! k = Some arg /\ rejected n (i + Z.of_nat k) arg) ->
  exists err, parseLoop args i n exprs = inl err.
Proof.
  revert i exprs; induction args as [|arg rest IH];
    intros i exprs Hn (k & a & Hk & Hrej); [discriminate|].
  assert (forall exprs',
    (k <> 0)%nat -> exists err, parseLoop rest (i + 1) n exprs' = inl err)
    as Hrest.
  { intros exprs' Hk0. destruct k as [|k]; [lia|]. simpl in Hk.
    apply IH; [simpl length in Hn; lia|].
    exists k, a. split; [assumption|].
    replace (i + 1 + Z.of_nat k) with (i + Z.of_nat (S k)) by lia.
    assumption. }
  assert (k = 0%nat -> rejected n i arg) as Hhead.
  { intros ->. simpl in Hk. injection Hk as ->.
    replace (i + Z.of_nat 0) with i in Hrej by lia. assumption. }
  cbn [parseLoop]. unfold rejected in Hhead.
  destruct (reFindStringSubmatch_cases arg) as [E|(m & col & pat & E)];
    rewrite E in *.
  - destruct (Z.eqb_spec i (n - 1)) as [Hi|Hi]; simpl; [|eauto].
    destruct (Open arg) as [err|f] eqn:EO; [eauto|].
    exfalso. destruct k as [|k].
    + destruct (Hhead eq_refl) as [?|(err & ?)]; [lia | discriminate].
    + simpl in Hk. apply lookup_lt_Some in Hk. simpl length in Hn. lia.
  - destruct (colors !! col) eqn:EC; [|eauto].
    destruct (Compile pat) as [expr|] eqn:EP; [|eauto].
    apply Hrest. intros ->. destruct (Hhead eq_refl); discriminate.
Qed.

Lemma parseArgs_rejected args :
  (exists (k : nat) arg,
     args !! k = Some arg /\
     rejected (Z.of_nat (length args)) (Z.of_nat k) arg) ->
  exists err, parseArgs args = inl err.
Proof.
  intros Hrej. unfold parseArgs.
  destruct (parseLoop_rejected args 0 (Z.of_nat (length args)) ∅)
    as (err & ->); [lia | exact Hrej | eauto].
Qed.

End ArgsFacts.

Lemma reFindStringSubmatch_overlap pattern :
  reFindStringSubmatch ("-overlap=" +:+ pattern) =
    ["-overlap=" +:+ untilNewline pattern; "overlap"; untilNewline pattern].
Proof. reflexivity. Qed.

Lemma reFindStringSubmatch_reset pattern :
  reFindStringSubmatch ("-reset=" +:+ pattern) =
    ["-reset=" +:+ untilNewline pattern; "reset"; untilNewline pattern].
Proof. reflexivity. Qed.

Lemma colors_pseudo :
  colors !! "overlap" = Some (esc "[37;1;4m") /\
  colors !! "reset" = Some (esc "[0m").
Proof. split; vm_compute; reflexivity. Qed.

Lemma addExpr_empty `{RegexEngine} col (expr : Regexp) :
  addExpr ∅ col expr = {[ col := [expr] ]}.
Proof.
  unfold addExpr. rewrite lookup_empty, lookup_insert_eq, insert_insert_eq.
  reflexivity.
Qed.

(** ** Lines that nothing matches *)

Lemma segmentLoop_nil n i segments cur :
  seg_c cur = RESET ->
  Bling.segmentLoop n i [] segments cur =
    (segments,
     newSegment (seg_begin cur) (seg_end cur + Z.of_nat n) RESET).
Proof.
  revert i cur; induction n as [|n IH]; intros i cur Hc.
  - simpl. destruct cur as [b e c]. simpl in *. subst c. do 2 f_equal. lia.
  - cbn [Bling.segmentLoop]. change (colorOf [] i) with RESET.
    rewrite Hc. simpl String.eqb. rewrite IH by exact Hc.
    simpl. do 2 f_equal. lia.
Qed.

Lemma makeColorizedSegments_nil (line : list byte) :
  Bling.makeColorizedSegments line [] =
    [newSegment 0 (Z.of_nat (length line)) RESET].
Proof.
  unfold Bling.makeColorizedSegments.
  rewrite segmentLoop_nil by reflexivity. reflexivity.
Qed.

Lemma flat_map_nil {A B} (f : A -> list B) (l : list A) :
  (forall x, In x l -> f x = []) -> flat_map f l = [].
Proof.
  induction l as [|a l IH]; simpl; intros Hf; [reflexivity|].
  rewrite (Hf a), IH; auto.
Qed.

Lemma findMatchingSegments_nil `{RegexEngine} (line : list byte)
    (exprs : gmap string (list Regexp)) :
  (forall c exs expr, exprs !! c = Some exs -> In expr exs ->
     FindAllSubmatchIndex expr line = []) ->
  findMatchingSegments line exprs = [].
Proof.
  intros Hno. unfold findMatchingSegments.
  rewrite flat_map_nil; [reflexivity|].
  intros [c exs] Hin. apply list_elem_of_In, elem_of_map_to_list in Hin.
  apply flat_map_nil. intros expr Hexpr. simpl.
  unfold spansOf. rewrite (Hno c exs expr Hin Hexpr). reflexivity.
Qed.

(** * The claims of the specification *)

(** C1 (round-trip text preservation).  For every line and every list of
    spans, hence for the spans of every set of pattern bindings, the renderer
    finds a text in the line for each segment of the segmenter's output,
    writes these texts in segment order, each between its escape sequence and
    the reset sequence, and a final line feed; the texts alone, concatenated,
    are the line.  This holds of [bling.go] and of the closed-range
    variant. *)
Theorem C1_roundtrip_text (line : list byte) (matches : list segment) :
  textPreserved (fun s => slice line (seg_begin s) (seg_end s))
    (Bling.printColorized line (Bling.makeColorizedSegments line matches))
    line (Bling.makeColorizedSegments line matches) /\
  textPreserved (fun s => slice line (seg_begin s) (seg_end s + 1))
    (Closed.printColorized line (Closed.makeColorizedSegments line matches))
    line (Closed.makeColorizedSegments line matches).
Proof.
  split; [apply textPreserved_Bling | apply textPreserved_Closed].
Qed.

(** The command line [-overlap=a -red=a] is accepted, and on the line [a] the
    matcher returns a span of colour [overlap] and one of colour [red], both
    over position 0. *)
Example spans_of_overlap_binding :
  let os := oneFile "f" (mkReader [] EOF) (mkReader [] EOF) in
  exists exprs,
    @parseArgs literalEngine os ["-overlap=a"; "-red=a"]
      = inr (exprs, @Stdin os) /\
    Permutation (@findMatchingSegments literalEngine (bytes "a") exprs)
      [newSegment 0 0 OVERLAP; newSegment 0 0 RED].
Proof.
  eexists. split; [vm_compute; reflexivity|].
  vm_compute. first [reflexivity | apply perm_swap].
Qed.

(** C2, counterexample.  [-overlap=a -red=a] on the line [a]: the two spans
    have different colours and both contain position 0, whose colour in the
    output is [overlap], the colour of the first span. *)
Lemma C2_overlap_can_be_original : ~ overlapNeverOriginal.
Proof.
  intros Hclaim.
  destruct (Hclaim (bytes "a")
              [newSegment 0 0 OVERLAP; newSegment 0 0 RED] 0
              (newSegment 0 0 OVERLAP) (newSegment 0 0 RED))
    as (_ & Hne & _).
  - simpl. lia.
  - simpl. auto.
  - simpl. auto.
  - discriminate.
  - apply Hne. reflexivity.
Qed.

(** C2 (per-position colour resolution), amended.  For every position of the
    line, the colour of the output segment that holds it depends on the spans
    that contain the position only: [reset] when there is none; the colour of
    the span when there is exactly one, whatever the other spans of the line;
    [overlap] when there are two or more, which differs from the colour of
    every one of them that is not itself bound to the name [overlap]. *)
Theorem C2_position_color (line : list byte) (matches : list segment) (i : Z) :
  0 <= i < Z.of_nat (length line) ->
  let col := colorAt halfOpen (Bling.makeColorizedSegments line matches) i in
  (covering matches i = [] -> col = Some RESET) /\
  (forall m, covering matches i = [m] -> col = Some (seg_c m)) /\
  ((2 <= length (covering matches i))%nat ->
     col = Some OVERLAP /\
     forall m, In m (covering matches i) -> seg_c m <> OVERLAP ->
       col <> Some (seg_c m)).
Proof.
  intros Hi col. unfold col. rewrite (colorAt_Bling line matches i Hi).
  rewrite colorOf_covering. split; [|split].
  - intros ->. reflexivity.
  - intros m ->. reflexivity.
  - intros Hlen. destruct (covering matches i) as [|a [|b l]];
      simpl in Hlen; try lia.
    split; [reflexivity|]. intros m _ Hm [= Heq]. congruence.
Qed.

Lemma C2_position_color_witness :
  let line := bytes "abcdef" in
  let matches := [newSegment 0 2 RED; newSegment 2 4 BLUE] in
  let col := colorAt halfOpen (Bling.makeColorizedSegments line matches) 2 in
  (covering matches 2 = [] -> col = Some RESET) /\
  (forall m, covering matches 2 = [m] -> col = Some (seg_c m)) /\
  ((2 <= length (covering matches 2))%nat ->
     col = Some OVERLAP /\
     forall m, In m (covering matches 2) -> seg_c m <> OVERLAP ->
       col <> Some (seg_c m)).
Proof.
  apply (C2_position_color (bytes "abcdef")
           [newSegment 0 2 RED; newSegment 2 4 BLUE] 2).
  simpl. lia.
Defined.

(** C3 (full coverage).  For every line of length [N] and every list of
    spans, the ranges of the output segments make up exactly the positions
    from 0 to [N - 1], the segments are in the order of their positions, and
    no position belongs to two segments.  The range of a segment is the part
    of the line its renderer prints: [begin <= i < end] in [bling.go],
    [begin <= i <= end] in the closed-range variant. *)
Theorem C3_full_coverage (line : list byte) (matches : list segment) :
  fullCoverage halfOpen (Z.of_nat (length line))
    (Bling.makeColorizedSegments line matches) /\
  fullCoverage contains (Z.of_nat (length line))
    (Closed.makeColorizedSegments line matches).
Proof.
  destruct (makeColorizedSegments_chain matches line) as [Hc _].
  apply chain_fullCoverage in Hc. split; [exact Hc|].
  rewrite Closed_makeColorizedSegments.
  apply fullCoverage_closeRange. exact Hc.
Qed.

(** C4 (no-match identity).  When no expression of the bindings matches the
    line, in particular when there is no binding, the matcher returns no
    span, the segmenter returns the single segment of colour [reset] that
    spans the line, and the renderer writes the line between two reset
    sequences, followed by a line feed. *)
Theorem C4_no_match_identity `{RegexEngine} (line : list byte)
    (exprs : gmap string (list Regexp)) :
  (forall c exs expr, exprs !! c = Some exs -> In expr exs ->
     FindAllSubmatchIndex expr line = []) ->
  let matches := findMatchingSegments line exprs in
  let N := Z.of_nat (length line) in
  (Bling.makeColorizedSegments line matches = [newSegment 0 N RESET] /\
   Bling.printColorized line (Bling.makeColorizedSegments line matches) =
     io_write (esc "[0m" ++ line ++ esc "[0m" ++ [x0a])) /\
  (Closed.makeColorizedSegments line matches = [newSegment 0 (N - 1) RESET] /\
   Closed.printColorized line (Closed.makeColorizedSegments line matches) =
     io_write (esc "[0m" ++ line ++ esc "[0m" ++ [x0a])).
Proof.
  intros Hno matches N. unfold matches.
  rewrite (findMatchingSegments_nil line exprs Hno).
  rewrite Closed_makeColorizedSegments, makeColorizedSegments_nil.
  assert (take (Z.to_nat (N - 0)) (drop (Z.to_nat 0) line) = line) as Htext.
  { unfold N. rewrite drop_0, Z.sub_0_r, Nat2Z.id. apply take_ge. lia. }
  repeat split.
  - unfold Bling.printColorized. cbn [Bling.buildLine seg_begin seg_end].
    rewrite slice_Some by lia. fold N. rewrite Htext.
    cbn [seg_c]. unfold io_write. f_equal.
    change (colors_at RESET) with (esc "[0m").
    rewrite <- !app_assoc. reflexivity.
  - unfold Closed.printColorized.
    cbn [fmap list_fmap closeRange Closed.printSegments seg_begin seg_end].
    replace (Z.of_nat (length line) - 1 + 1) with N by (unfold N; lia).
    rewrite slice_Some by (unfold N; lia). rewrite Htext.
    cbn [seg_c]. change (colors_at RESET) with (esc "[0m").
    unfold io_write. cbn. rewrite <- !app_assoc. reflexivity.
Qed.

(** The binding [-red=zzz] on the line [hello]. *)
Lemma C4_no_match_identity_witness :
  let line := bytes "hello" in
  let exprs : gmap string (list (@Regexp literalEngine)) :=
    {[ "red" := [bytes "zzz"] ]} in
  let matches := @findMatchingSegments literalEngine line exprs in
  (Bling.makeColorizedSegments line matches = [newSegment 0 5 RESET] /\
   Bling.printColorized line (Bling.makeColorizedSegments line matches) =
     io_write (esc "[0m" ++ line ++ esc "[0m" ++ [x0a])) /\
  (Closed.makeColorizedSegments line matches = [newSegment 0 4 RESET] /\
   Closed.printColorized line (Closed.makeColorizedSegments line matches) =
     io_write (esc "[0m" ++ line ++ esc "[0m" ++ [x0a])).
Proof.
  apply (@C4_no_match_identity literalEngine (bytes "hello")
           {[ "red" := [bytes "zzz"] ]}).
  intros c exs expr Hl Hin.
  apply lookup_singleton_Some in Hl. destruct Hl as [_ <-].
  destruct Hin as [<-|[]]. reflexivity.
Defined.

(** C5 (final-line processing): the code drops a final line that has no line
    feed.  [ReadBytes] returns such a line together with the end of input, and
    [run] returns on the error without a look at the data.  So the bytes
    [tail] that follow the last line feed of the input change nothing: the
    output and the result of [run] are those for the input without them.
    The two copies behave alike. *)
Theorem C5_final_line_dropped `{RegexEngine} (data tail : list byte)
    (err : error) (exprs : gmap string (list Regexp)) :
  splitDelim x0a tail = None ->
  Bling.run (mkReader (data ++ tail) err) exprs =
    Bling.run (mkReader data err) exprs /\
  Closed.run (mkReader (data ++ tail) err) exprs =
    Closed.run (mkReader data err) exprs.
Proof.
  intros Htail. split; apply run_tail; assumption.
Qed.

(** The input [ab], line feed, [cd]: the line feed of the first line is
    stripped and [ab] is rendered; [cd] is not. *)
Lemma C5_final_line_dropped_witness :
  let rendered := esc "[0m" ++ bytes "ab" ++ esc "[0m" ++ [x0a] in
  ReadBytes (mkReader (bytes "cd") EOF) x0a
    = (bytes "cd", Some EOF, mkReader [] EOF) /\
  @Bling.run literalEngine (mkReader (bytes "ab" ++ [x0a]) EOF) ∅
    = (rendered, Ret None) /\
  (@Bling.run literalEngine
     (mkReader ((bytes "ab" ++ [x0a]) ++ bytes "cd") EOF) ∅ =
   @Bling.run literalEngine (mkReader (bytes "ab" ++ [x0a]) EOF) ∅ /\
   @Closed.run literalEngine
     (mkReader ((bytes "ab" ++ [x0a]) ++ bytes "cd") EOF) ∅ =
   @Closed.run literalEngine (mkReader (bytes "ab" ++ [x0a]) EOF) ∅).
Proof.
  split; [reflexivity|]. split; [vm_compute; reflexivity|].
  apply (@C5_final_line_dropped literalEngine (bytes "ab" ++ [x0a])
           (bytes "cd") EOF ∅).
  reflexivity.
Defined.

(** C6 (read-error propagation): [main] drops the error that [run] returns.
    For every command line that [parseArgs] accepts, [run] leaves its loop
    with the error of the reader, [nil] at a clean end of input and the read
    error otherwise, and [main] returns normally in both cases: the process
    ends with status 0 after a read error too.  The two copies behave
    alike. *)
Theorem C6_read_error_not_fatal `{RegexEngine} `{OS} (prog : string)
    (args : list string) (exprs : gmap string (list Regexp)) (file : reader) :
  args <> [] -> parseArgs args = inr (exprs, file) ->
  (exists out,
     Bling.run file exprs = (out, Ret (finalError file)) /\
     Bling.main (prog :: args) = (out, Ret tt)) /\
  (exists out,
     Closed.run file exprs = (out, Ret (finalError file)) /\
     Closed.main (prog :: args) = (out, Ret tt)) /\
  exit_status (snd (Bling.main (prog :: args))) = Some 0.
Proof.
  intros Hne Hparse.
  pose proof (main_returns _ _ Bling.usage prog args exprs file
                Bling_printColorized_writes Hne Hparse) as HB.
  pose proof (main_returns _ _ Closed.usage prog args exprs file
                Closed_printColorized_writes Hne Hparse) as HC.
  repeat split; try assumption.
  destruct HB as (out & _ & Hmain). unfold Bling.main. rewrite Hmain.
  reflexivity.
Qed.

(** A file that gives the line [ab] and then a read error. *)
Lemma C6_read_error_not_fatal_witness :
  let failure := Err "read f: input/output error" in
  let file := mkReader (bytes "ab" ++ [x0a]) failure in
  let os := oneFile "f" file (mkReader [] EOF) in
  finalError file = Some failure /\
  (exists out,
     @Bling.run literalEngine file ∅ = (out, Ret (finalError file)) /\
     @Bling.main literalEngine os ["bling"; "f"] = (out, Ret tt)) /\
  (exists out,
     @Closed.run literalEngine file ∅ = (out, Ret (finalError file)) /\
     @Closed.main literalEngine os ["bling"; "f"] = (out, Ret tt)) /\
  exit_status (snd (@Bling.main literalEngine os ["bling"; "f"])) = Some 0.
Proof.
  split; [reflexivity|].
  apply (@C6_read_error_not_fatal literalEngine
           (oneFile "f"
              (mkReader (bytes "ab" ++ [x0a])
                 (Err "read f: input/output error"))
              (mkReader [] EOF))
           "bling" ["f"]).
  - discriminate.
  - reflexivity.
Defined.

(** C7 (configuration errors are fatal and precede processing).  When the
    argument list holds a token before the last that is not of the form of a
    binding, a binding whose colour is not in the table, a binding whose
    pattern does not compile, or a last token that is not a binding and
    names a file that cannot be opened, [parseArgs] returns an error and
    [main] stops through [log.Fatal] with that error: exit status 1 and
    nothing written to standard output, [run] not being reached. *)
Theorem C7_configuration_errors_fatal `{RegexEngine} `{OS}
    (prog : string) (args : list string) :
  (exists (k : nat) arg,
     args !! k = Some arg /\ (k + 1 < length args)%nat /\
     reFindStringSubmatch arg = []) \/
  (exists arg m col pattern,
     In arg args /\ reFindStringSubmatch arg = [m; col; pattern] /\
     colors !! col = None) \/
  (exists arg m col pattern,
     In arg args /\ reFindStringSubmatch arg = [m; col; pattern] /\
     Compile pattern = None) \/
  (exists arg err,
     last args = Some arg /\ reFindStringSubmatch arg = [] /\
     Open arg = inl err) ->
  exists err,
    parseArgs args = inl err /\
    Bling.main (prog :: args) = ([], Fatal err) /\
    Closed.main (prog :: args) = ([], Fatal err) /\
    exit_status (snd (Bling.main (prog :: args))) = Some 1.
Proof.
  intros Hbad.
  assert (exists (k : nat) arg, args !! k = Some arg /\
            rejected (Z.of_nat (length args)) (Z.of_nat k) arg) as Hrej.
  { destruct Hbad as [(k & arg & Hk & Hlt & E)
                     |[(arg & m & col & pat & Hin & E & Hc)
                     |[(arg & m & col & pat & Hin & E & Hc)
                     |(arg & err & Hl & E & Ho)]]].
    - exists k, arg. split; [assumption|]. unfold rejected. rewrite E.
      left. lia.
    - apply list_elem_of_In, list_elem_of_lookup_1 in Hin.
      destruct Hin as (k & Hk). exists k, arg. split; [assumption|].
      unfold rejected. rewrite E. left. assumption.
    - apply list_elem_of_In, list_elem_of_lookup_1 in Hin.
      destruct Hin as (k & Hk). exists k, arg. split; [assumption|].
      unfold rejected. rewrite E. right. assumption.
    - rewrite last_lookup in Hl. exists (pred (length args)), arg.
      split; [assumption|]. unfold rejected. rewrite E. right. eauto. }
  destruct (parseArgs_rejected args Hrej) as (err & Herr).
  exists err. split; [assumption|].
  destruct Hrej as (k & arg & Hk & _).
  destruct args as [|a args]; [discriminate|].
  unfold Bling.main, Closed.main, Driver.main. rewrite Herr.
  repeat split.
Qed.

Lemma C7_configuration_errors_fatal_witness :
  let os := oneFile "f" (mkReader (bytes "ab" ++ [x0a]) EOF) (mkReader [] EOF) in
  exists err,
    @parseArgs literalEngine os ["-purple=foo"] = inl err /\
    @Bling.main literalEngine os ["bling"; "-purple=foo"] = ([], Fatal err) /\
    @Closed.main literalEngine os ["bling"; "-purple=foo"] = ([], Fatal err) /\
    exit_status (snd (@Bling.main literalEngine os ["bling"; "-purple=foo"]))
      = Some 1.
Proof.
  apply (@C7_configuration_errors_fatal literalEngine
           (oneFile "f" (mkReader (bytes "ab" ++ [x0a]) EOF) (mkReader [] EOF))
           "bling" ["-purple=foo"]).
  right. left. exists "-purple=foo", "-purple=foo", "purple", "foo".
  split; [simpl; auto|]. split; reflexivity.
Defined.

(** C8, counterexample.  In [bling.go] the segments of the output are
    half-open while [contains] reads a span as a closed range.  For [-red=a]
    on the line [ab] the output is [(0,0,reset) (0,1,red) (1,2,reset)]; read
    as spans, the first two contain position 0 and the last two position 1,
    and the second pass colours both positions [overlap]. *)
Lemma C8_bling_not_fixed_point :
  ~ outputIsFixedPoint Bling.makeColorizedSegments.
Proof.
  intros Hfix. specialize (Hfix (bytes "ab") [newSegment 0 0 RED]).
  vm_compute in Hfix. discriminate.
Qed.

(** C8 (idempotent coalescing), amended.  In the closed-range variant the
    output of the segmenter is a fixed point: given back as the spans, it
    comes out unchanged.  In [bling.go] the same holds once every segment
    of the output is turned into the closed span of the same positions, its
    end moved back by one. *)
Theorem C8_idempotent_coalescing :
  outputIsFixedPoint Closed.makeColorizedSegments /\
  forall (line : list byte) (matches : list segment),
    Bling.makeColorizedSegments line
      (closeRange <$> Bling.makeColorizedSegments line matches) =
    Bling.makeColorizedSegments line matches.
Proof.
  assert (forall (line : list byte) matches,
    Bling.makeColorizedSegments line
      (closeRange <$> Bling.makeColorizedSegments line matches) =
    Bling.makeColorizedSegments line matches) as Hfix.
  { intros line matches. apply makeColorizedSegments_ext.
    intros j Hj. apply colorOf_output. assumption. }
  split; [|exact Hfix].
  intros line matches. rewrite !Closed_makeColorizedSegments, Hfix.
  reflexivity.
Qed.

(** C9.  The spans are counted as they come, with no regard to their
    colours: a position that two or more spans contain has the colour
    [overlap] in the output.  No condition bears on the colours of the spans,
    so this holds also when they all have one colour, as for two patterns
    bound to the same colour. *)
Theorem C9_same_color_overlap (line : list byte) (matches : list segment)
    (i : Z) :
  0 <= i < Z.of_nat (length line) ->
  (2 <= length (covering matches i))%nat ->
  colorOf matches i = OVERLAP /\
  colorAt halfOpen (Bling.makeColorizedSegments line matches) i = Some OVERLAP.
Proof.
  intros Hi Hlen. rewrite (colorAt_Bling line matches i Hi).
  rewrite colorOf_covering.
  destruct (covering matches i) as [|a [|b l]]; simpl in Hlen; try lia.
  split; reflexivity.
Qed.

(** Two patterns bound to [red], [abc] and [bc], on the line [abc]: the
    matcher returns two red spans, and position 1, which both contain, is
    coloured [overlap]. *)
Lemma C9_same_color_overlap_witness :
  let line := bytes "abc" in
  let matches :=
    @findMatchingSegments literalEngine line
      {[ "red" := [bytes "abc"; bytes "bc"] ]} in
  matches = [newSegment 0 2 RED; newSegment 1 2 RED] /\
  colorOf matches 1 = OVERLAP /\
  colorAt halfOpen (Bling.makeColorizedSegments line matches) 1 = Some OVERLAP.
Proof.
  split; [vm_compute; reflexivity|].
  apply (C9_same_color_overlap (bytes "abc")
           (@findMatchingSegments literalEngine (bytes "abc")
              {[ "red" := [bytes "abc"; bytes "bc"] ]}) 1).
  - simpl. lia.
  - vm_compute. lia.
Defined.

(** C10.  [parseArgs] accepts the names [reset] and [overlap] as the colour
    of a binding: the colour is looked up in [colors], which holds both.  The
    pattern of the binding is what the expression of [parseArgs] captures, the
    text after the equals sign up to the first line feed. *)
Theorem C10_pseudo_colors_accepted `{RegexEngine} `{OS}
    (pattern : string) (expr : Regexp) :
  Compile (untilNewline pattern) = Some expr ->
  parseArgs ["-overlap=" +:+ pattern] = inr ({[ "overlap" := [expr] ]}, Stdin) /\
  parseArgs ["-reset=" +:+ pattern] = inr ({[ "reset" := [expr] ]}, Stdin).
Proof.
  intros Hc. destruct colors_pseudo as [Ho Hr].
  unfold parseArgs. cbn [parseLoop].
  rewrite reFindStringSubmatch_overlap, reFindStringSubmatch_reset.
  rewrite Ho, Hr, Hc, !addExpr_empty. split; reflexivity.
Qed.

Lemma C10_pseudo_colors_accepted_witness :
  let os := oneFile "f" (mkReader [] EOF) (mkReader [] EOF) in
  @parseArgs literalEngine os ["-overlap=x"]
    = inr ({[ "overlap" := [bytes "x"] ]}, @Stdin os) /\
  @parseArgs literalEngine os ["-reset=x"]
    = inr ({[ "reset" := [bytes "x"] ]}, @Stdin os).
Proof.
  apply (@C10_pseudo_colors_accepted literalEngine
           (oneFile "f" (mkReader [] EOF) (mkReader [] EOF)) "x" (bytes "x")).
  reflexivity.
Defined.

(** * Further properties of the code *)

(** ** The output of the segmenter *)

Lemma snoc_cases {A} (l : list A) (x : A) l1 s t l2 :
  l ++ [x] = l1 ++ s :: t :: l2 ->
  (l2 = [] /\ l = l1 ++ [s] /\ x = t) \/
  (exists l2', l2 = l2' ++ [x] /\ l = l1 ++ s :: t :: l2').
Proof.
  intros E. destruct l2 as [|y l2 _] using rev_ind.
  - left. change (l1 ++ [s; t]) with (l1 ++ [s] ++ [t]) in E.
    rewrite app_assoc in E. apply app_inj_tail in E. tauto.
  - right. exists l2.
    change (l1 ++ s :: t :: l2 ++ [y]) with (l1 ++ (s :: t :: l2) ++ [y]) in E.
    rewrite app_assoc in E. apply app_inj_tail in E.
    destruct E as [-> ->]. auto.
Qed.

Lemma adjacentDistinct_grow segs cur :
  adjacentDistinct (segs ++ [cur]) -> adjacentDistinct (segs ++ [incr_end cur]).
Proof.
  intros Hadj l1 s t l2 E.
  destruct (snoc_cases _ _ _ _ _ _ E) as [(-> & -> & <-)|(l2' & -> & ->)].
  - apply (Hadj l1 s cur []). rewrite <- app_assoc. reflexivity.
  - apply (Hadj l1 s t (l2' ++ [cur])). rewrite <- app_assoc. reflexivity.
Qed.

Lemma adjacentDistinct_snoc segs cur new :
  adjacentDistinct (segs ++ [cur]) -> seg_c cur <> seg_c new ->
  adjacentDistinct ((segs ++ [cur]) ++ [new]).
Proof.
  intros Hadj Hne l1 s t l2 E.
  destruct (snoc_cases _ _ _ _ _ _ E) as [(-> & E' & <-)|(l2' & -> & E')].
  - apply app_inj_tail in E'. destruct E' as [_ ->]. assumption.
  - apply (Hadj l1 s t l2'). assumption.
Qed.

Lemma outputShape_grow segs cur :
  outputShape (segs ++ [cur]) -> outputShape (segs ++ [incr_end cur]).
Proof.
  intros (first & rest & E & Hb & Hc & Hne).
  destruct segs as [|f segs]; simpl in E.
  - injection E as <- <-. exists (incr_end cur), []. simpl. auto.
  - injection E as <- <-. exists f, (segs ++ [incr_end cur]).
    repeat split; try assumption.
    apply Forall_app in Hne. destruct Hne as [Hs Hcur].
    apply Forall_app. split; [assumption|].
    rewrite Forall_singleton in Hcur. rewrite Forall_singleton.
    unfold nonEmpty, incr_end in *. simpl. lia.
Qed.

Lemma outputShape_snoc segs i c :
  outputShape segs -> outputShape (segs ++ [newSegment i (i + 1) c]).
Proof.
  intros (first & rest & -> & Hb & Hc & Hne).
  exists first, (rest ++ [newSegment i (i + 1) c]).
  repeat split; try assumption.
  apply Forall_app. split; [assumption|].
  rewrite Forall_singleton. unfold nonEmpty. simpl. lia.
Qed.

Lemma segmentLoop_shape matches n i segments cur :
  outputShape (segments ++ [cur]) /\ adjacentDistinct (segments ++ [cur]) ->
  let '(segments', cur') := Bling.segmentLoop n i matches segments cur in
  outputShape (segments' ++ [cur']) /\ adjacentDistinct (segments' ++ [cur']).
Proof.
  revert i segments cur; induction n as [|n IH]; intros i segments cur [Hs Ha].
  - simpl. auto.
  - cbn [Bling.segmentLoop].
    destruct (String.eqb_spec (seg_c cur) (colorOf matches i)) as [Heq|Hne];
      apply IH.
    + split; [apply outputShape_grow | apply adjacentDistinct_grow];
        assumption.
    + split; [apply outputShape_snoc | apply adjacentDistinct_snoc];
        assumption.
Qed.

Lemma makeColorizedSegments_shape (line : list byte) matches :
  outputShape (Bling.makeColorizedSegments line matches) /\
  adjacentDistinct (Bling.makeColorizedSegments line matches).
Proof.
  unfold Bling.makeColorizedSegments.
  pose proof (segmentLoop_shape matches (length line) 0 []
                (newSegment 0 0 RESET)) as H.
  destruct (Bling.segmentLoop _ _ _ _ _) as [segments cur].
  apply H. split.
  - exists (newSegment 0 0 RESET), []. simpl. auto.
  - intros l1 s t l2 E. destruct l1 as [|? [|? ?]]; discriminate.
Qed.

(** X1.  The output of the segmenter of [bling.go] is never empty: it starts
    with a segment of colour [reset] that begins at 0 and may be empty; every
    later segment has at least one position; every segment lies within the
    line, its bounds in order. *)
Theorem X1_output_shape (line : list byte) (matches : list segment) :
  let segs := Bling.makeColorizedSegments line matches in
  outputShape segs /\
  Forall (fun s => 0 <= seg_begin s <= seg_end s /\
                   seg_end s <= Z.of_nat (length line)) segs.
Proof.
  intros segs. split; [apply makeColorizedSegments_shape|].
  destruct (makeColorizedSegments_chain matches line) as [Hc _].
  apply Forall_forall. intros s Hin. apply list_elem_of_In in Hin.
  destruct (chain_In _ _ _ _ Hc Hin) as (? & ? & ?). lia.
Qed.

(** X2.  The segments are maximal runs: two neighbours of the output never
    have the same colour. *)
Theorem X2_neighbours_differ (line : list byte) (matches : list segment) :
  adjacentDistinct (Bling.makeColorizedSegments line matches).
Proof. apply makeColorizedSegments_shape. Qed.

Lemma makeColorizedSegments_colors (line : list byte) matches s :
  In s (Bling.makeColorizedSegments line matches) ->
  seg_c s = RESET \/ seg_c s = OVERLAP \/
  exists m, In m matches /\ seg_c m = seg_c s.
Proof.
  intros Hin.
  destruct (makeColorizedSegments_shape line matches)
    as [(first & rest & E & _ & Hc & Hne) _].
  destruct (makeColorizedSegments_chain matches line) as [_ Hcol].
  rewrite Forall_forall in Hcol.
  pose proof (Hcol s (proj2 (list_elem_of_In _ _) Hin)) as Hs.
  rewrite E in Hin. destruct Hin as [<-|Hin]; [left; assumption|].
  rewrite Forall_forall in Hne.
  pose proof (Hne s (proj2 (list_elem_of_In _ _) Hin)) as Hn.
  unfold nonEmpty in Hn. rewrite <- (Hs (seg_begin s)) by lia.
  rewrite colorOf_covering.
  destruct (covering matches (seg_begin s)) as [|m [|m' l]] eqn:Ecov; auto.
  right. right. exists m. split; [|reflexivity].
  assert (In m (covering matches (seg_begin s))) as Hm
    by (rewrite Ecov; left; reflexivity).
  unfold covering in Hm. apply filter_In in Hm. tauto.
Qed.

(** X3.  A colour of the output is [reset], [overlap] or the colour of one of
    the spans. *)
Theorem X3_output_colors (line : list byte) (matches : list segment) s :
  In s (Bling.makeColorizedSegments line matches) ->
  seg_c s = RESET \/ seg_c s = OVERLAP \/
  exists m, In m matches /\ seg_c m = seg_c s.
Proof. apply makeColorizedSegments_colors. Qed.

Lemma X3_output_colors_witness :
  let line := bytes "abcdef" in
  let matches := [newSegment 0 2 RED; newSegment 2 4 BLUE] in
  let s := newSegment 3 5 BLUE in
  In s (Bling.makeColorizedSegments line matches) /\
  (seg_c s = RESET \/ seg_c s = OVERLAP \/
   exists m, In m matches /\ seg_c m = seg_c s).
Proof.
  assert (In (newSegment 3 5 BLUE)
            (Bling.makeColorizedSegments (bytes "abcdef")
               [newSegment 0 2 RED; newSegment 2 4 BLUE])) as Hin
    by (vm_compute; auto 6).
  split; [exact Hin|].
  exact (X3_output_colors (bytes "abcdef")
           [newSegment 0 2 RED; newSegment 2 4 BLUE] (newSegment 3 5 BLUE) Hin).
Defined.

(** X4.  The first segment of the output is empty exactly when the line is
    empty or its first position is not of colour [reset]. *)
Theorem X4_leading_segment (line : list byte) (matches : list segment)
    first rest :
  Bling.makeColorizedSegments line matches = first :: rest ->
  (seg_end first = 0 <-> line = [] \/ colorOf matches 0 <> RESET).
Proof.
  intros E.
  destruct (makeColorizedSegments_chain matches line) as [Hc Hcol].
  destruct (makeColorizedSegments_shape line matches)
    as [(f & r & E' & _ & Hreset & Hne) Hadj].
  rewrite E in *. injection E' as <- <-.
  destruct Hc as (Hb & Hle & Hc). apply Forall_cons in Hcol.
  destruct Hcol as [Hfirst Hrest]. split.
  - intros Hend. destruct line as [|b line]; [left; reflexivity|]. right.
    destruct rest as [|s rest'].
    { simpl in Hc. simpl length in Hc. lia. }
    destruct Hc as (Hsb & _ & _).
    apply Forall_cons in Hne. destruct Hne as [Hs _].
    apply Forall_cons in Hrest. destruct Hrest as [Hscol _].
    unfold nonEmpty in Hs. rewrite (Hscol 0) by lia.
    rewrite <- Hreset. intros Heq.
    apply (Hadj [] first s rest'); [reflexivity | congruence].
  - intros Hcase.
    destruct (Z.eq_dec (seg_end first) 0) as [|Hpos]; [assumption|].
    exfalso. apply chain_le in Hc.
    destruct Hcase as [->|Hcolor].
    + simpl length in Hc. lia.
    + apply Hcolor. rewrite (Hfirst 0) by lia. assumption.
Qed.

Lemma X4_leading_segment_witness :
  let line := bytes "abcdef" in
  let matches := [newSegment 0 2 RED; newSegment 2 4 BLUE] in
  Bling.makeColorizedSegments line matches =
    newSegment 0 0 RESET ::
      [newSegment 0 2 RED; newSegment 2 3 OVERLAP; newSegment 3 5 BLUE;
       newSegment 5 6 RESET] /\
  (seg_end (newSegment 0 0 RESET) = 0 <->
   line = [] \/ colorOf matches 0 <> RESET).
Proof.
  assert (Bling.makeColorizedSegments (bytes "abcdef")
            [newSegment 0 2 RED; newSegment 2 4 BLUE] =
          newSegment 0 0 RESET ::
            [newSegment 0 2 RED; newSegment 2 3 OVERLAP; newSegment 3 5 BLUE;
             newSegment 5 6 RESET]) as E by (vm_compute; reflexivity).
  split; [exact E|].
  exact (X4_leading_segment (bytes "abcdef")
           [newSegment 0 2 RED; newSegment 2 4 BLUE] _ _ E).
Defined.

(** ** The order of the spans, and spans without positions *)

(** X5.  The output of the segmenter depends on the spans as a collection,
    not on their order: neither the order in which the map of the bindings
    is traversed nor the sort, [partition] included, changes it. *)
Theorem X5_order_of_spans (line : list byte) (m1 m2 : list segment) :
  Permutation m1 m2 ->
  Bling.makeColorizedSegments line m1 = Bling.makeColorizedSegments line m2 /\
  Closed.makeColorizedSegments line m1 = Closed.makeColorizedSegments line m2 /\
  Bling.makeColorizedSegments line (partition m1) =
    Bling.makeColorizedSegments line m1.
Proof.
  intros HP.
  assert (Bling.makeColorizedSegments line m1 =
          Bling.makeColorizedSegments line m2) as E
    by (apply makeColorizedSegments_Permutation; exact HP).
  split; [exact E|]. split.
  - rewrite !Closed_makeColorizedSegments, E. reflexivity.
  - apply makeColorizedSegments_Permutation. unfold partition, sortByBegin.
    apply merge_sort_Permutation.
Qed.

Lemma X5_order_of_spans_witness :
  let line := bytes "abcdef" in
  let m1 := [newSegment 2 4 BLUE; newSegment 0 2 RED] in
  let m2 := [newSegment 0 2 RED; newSegment 2 4 BLUE] in
  Bling.makeColorizedSegments line m1 = Bling.makeColorizedSegments line m2 /\
  Closed.makeColorizedSegments line m1 = Closed.makeColorizedSegments line m2 /\
  Bling.makeColorizedSegments line (partition m1) =
    Bling.makeColorizedSegments line m1.
Proof.
  apply (X5_order_of_spans (bytes "abcdef")
           [newSegment 2 4 BLUE; newSegment 0 2 RED]
           [newSegment 0 2 RED; newSegment 2 4 BLUE]).
  apply perm_swap.
Defined.

Lemma colorOf_drop_empty matches i :
  colorOf (List.filter (fun m => seg_begin m <=? seg_end m) matches) i =
    colorOf matches i.
Proof.
  rewrite !colorOf_covering. unfold covering.
  replace (List.filter (fun m => contains m i)
             (List.filter (fun m => seg_begin m <=? seg_end m) matches))
    with (List.filter (fun m => contains m i) matches); [reflexivity|].
  induction matches as [|m rest IH]; simpl; [reflexivity|].
  destruct (contains m i) eqn:Ec.
  - replace (seg_begin m <=? seg_end m) with true.
    + simpl. rewrite Ec, IH. reflexivity.
    + symmetry. apply Z.leb_le. unfold contains in Ec.
      apply andb_true_iff in Ec. lia.
  - destruct (seg_begin m <=? seg_end m); simpl; rewrite ?Ec; exact IH.
Qed.

(** X6.  A span whose end is before its beginning, as the matcher makes for a
    match of the empty string, colours nothing: the output is the same
    without such spans. *)
Theorem X6_empty_spans_ignored (line : list byte) (matches : list segment) :
  Bling.makeColorizedSegments line
    (List.filter (fun m => seg_begin m <=? seg_end m) matches) =
  Bling.makeColorizedSegments line matches /\
  Closed.makeColorizedSegments line
    (List.filter (fun m => seg_begin m <=? seg_end m) matches) =
  Closed.makeColorizedSegments line matches.
Proof.
  assert (Bling.makeColorizedSegments line
            (List.filter (fun m => seg_begin m <=? seg_end m) matches) =
          Bling.makeColorizedSegments line matches) as E.
  { apply makeColorizedSegments_ext. intros j _. apply colorOf_drop_empty. }
  split; [exact E|]. rewrite !Closed_makeColorizedSegments, E. reflexivity.
Qed.

(** ** The two copies of the program *)

Lemma printColorized_same (line : list byte) matches :
  Closed.printColorized line (Closed.makeColorizedSegments line matches) =
  Bling.printColorized line (Bling.makeColorizedSegments line matches).
Proof.
  destruct (textPreserved_Bling line matches) as (texts & HF & -> & _).
  rewrite Closed_makeColorizedSegments. unfold Closed.printColorized.
  rewrite (printSegments_texts _ _ _ (slices_closeRange _ _ _ HF)).
  rewrite wrap_closeRange. reflexivity.
Qed.

Lemma runLoop_same `{RegexEngine} fuel br (exprs : gmap string (list Regexp)) :
  Driver.runLoop Closed.makeColorizedSegments Closed.printColorized
    fuel br exprs =
  Driver.runLoop Bling.makeColorizedSegments Bling.printColorized
    fuel br exprs.
Proof.
  revert br; induction fuel as [|fuel IH]; intros br; [reflexivity|].
  cbn [Driver.runLoop]. destruct (ReadBytes br x0a) as [[ln err] br'].
  destruct err as [e|]; [reflexivity|].
  destruct (last ln); [|reflexivity].
  rewrite printColorized_same, IH. reflexivity.
Qed.

(** X7.  The two copies of the program differ in the bounds they keep for a
    segment and in nothing that can be observed, the usage message apart: the
    segments of the variant are those of [bling.go] with the end moved back
    by one, the two renderers write the same bytes, [run] writes and returns
    the same for every input and every set of bindings, and so does [main]
    for every command line with an argument. *)
Theorem X7_copies_agree `{RegexEngine} `{OS} (line : list byte)
    (matches : list segment) (r : reader) (exprs : gmap string (list Regexp))
    (prog arg : string) (args : list string) :
  Closed.makeColorizedSegments line matches =
    closeRange <$> Bling.makeColorizedSegments line matches /\
  Closed.printColorized line (Closed.makeColorizedSegments line matches) =
    Bling.printColorized line (Bling.makeColorizedSegments line matches) /\
  Closed.run r exprs = Bling.run r exprs /\
  Closed.main (prog :: arg :: args) = Bling.main (prog :: arg :: args).
Proof.
  split; [apply Closed_makeColorizedSegments|].
  split; [apply printColorized_same|].
  split.
  - unfold Closed.run, Bling.run, Driver.run. apply runLoop_same.
  - unfold Closed.main, Bling.main, Driver.main.
    destruct (parseArgs (arg :: args)) as [err|[exprs' file]]; [reflexivity|].
    unfold Driver.run. rewrite runLoop_same. reflexivity.
Qed.

(** ** Lines in, lines out *)

Lemma countLines_app l k : countLines (l ++ k) = (countLines l + countLines k)%nat.
Proof. unfold countLines. rewrite List.filter_app, length_app. reflexivity. Qed.

Lemma splitDelim_None_count l :
  splitDelim x0a l = None <-> countLines l = 0%nat.
Proof.
  unfold countLines. induction l as [|b l IH]; simpl; [tauto|].
  destruct (Byte.eqb b x0a); simpl.
  - split; discriminate.
  - destruct (splitDelim x0a l) as [[h t]|].
    + split; [discriminate|]. intros E. apply IH in E. discriminate.
    + tauto.
Qed.

(** What [ReadBytes] returns without error is a line without line feed
    followed by one line feed. *)
Lemma splitDelim_line l h t :
  splitDelim x0a l = Some (h, t) ->
  exists line, h = line ++ [x0a] /\ l = line ++ x0a :: t /\
               splitDelim x0a line = None.
Proof.
  revert h t; induction l as [|b l IH]; simpl; intros h t; [discriminate|].
  destruct (Byte.eqb b x0a) eqn:E.
  - intros [= <- <-]. apply Byte.byte_dec_bl in E. subst b.
    exists []. auto.
  - destruct (splitDelim x0a l) as [[h' t']|]; [|discriminate].
    intros [= <- <-]. destruct (IH _ _ eq_refl) as (line & -> & -> & Hn).
    exists (b :: line). simpl. rewrite E, Hn. auto.
Qed.

Lemma splitDelim_first line rest :
  splitDelim x0a line = None ->
  splitDelim x0a (line ++ x0a :: rest) = Some (line ++ [x0a], rest).
Proof.
  induction line as [|b line IH]; simpl; [reflexivity|].
  destruct (Byte.eqb b x0a); [discriminate|].
  destruct (splitDelim x0a line) as [[h t]|]; [discriminate|].
  intros _. rewrite IH; reflexivity.
Qed.

Lemma strip_line (line : list byte) :
  last (line ++ [x0a]) = Some x0a /\
  take (length (line ++ [x0a]) - 1) (line ++ [x0a]) = line.
Proof.
  split; [apply last_snoc|].
  rewrite length_app. simpl. replace (length line + 1 - 1)%nat
    with (length line) by lia.
  apply take_app_length.
Qed.

Lemma runLoop_line `{RegexEngine}
    (mk : list byte -> list segment -> list segment)
    (pr : list byte -> list segment -> io unit)
    fuel line rest err (exprs : gmap string (list Regexp)) :
  splitDelim x0a line = None ->
  Driver.runLoop mk pr (S fuel) (mkReader (line ++ x0a :: rest) err) exprs =
    (pr line (mk line (findMatchingSegments line exprs));;
     Driver.runLoop mk pr fuel (mkReader rest err) exprs).
Proof.
  intros Hline. cbn [Driver.runLoop]. unfold ReadBytes. cbn [rd_data rd_err].
  rewrite (splitDelim_first _ _ Hline).
  destruct (strip_line line) as [-> Htake]. simpl Byte.eqb.
  cbv iota. rewrite Htake. reflexivity.
Qed.

(** X8.  [run] treats its input line by line, in order: for an input that
    starts with a line and its line feed, it writes what the renderer writes
    for that line, stripped of the line feed and of nothing else, and goes on
    as [run] does on the rest of the input. *)
Theorem X8_run_line_by_line `{RegexEngine} (line rest : list byte)
    (err : error) (exprs : gmap string (list Regexp)) :
  splitDelim x0a line = None ->
  Bling.run (mkReader (line ++ x0a :: rest) err) exprs =
    (Bling.printColorized line
       (Bling.makeColorizedSegments line (findMatchingSegments line exprs));;
     Bling.run (mkReader rest err) exprs).
Proof.
  intros Hline. unfold Bling.run, Driver.run. cbn [rd_data].
  rewrite (runLoop_line _ _ _ _ _ _ _ Hline).
  rewrite (runLoop_fuel _ _ (length (line ++ x0a :: rest)) (S (length rest)));
    [reflexivity | |]; cbn [rd_data]; rewrite ?length_app; simpl; lia.
Qed.

Lemma X8_run_line_by_line_witness :
  @Bling.run literalEngine
    (mkReader (bytes "ab" ++ x0a :: bytes "cd" ++ [x0a]) EOF) ∅ =
  (Bling.printColorized (bytes "ab")
     (Bling.makeColorizedSegments (bytes "ab")
        (@findMatchingSegments literalEngine (bytes "ab") ∅));;
   @Bling.run literalEngine (mkReader (bytes "cd" ++ [x0a]) EOF) ∅).
Proof.
  apply (@X8_run_line_by_line literalEngine (bytes "ab")
           (bytes "cd" ++ [x0a]) EOF ∅).
  reflexivity.
Defined.

(** No escape sequence of the table holds a line feed. *)
Lemma colors_at_no_newline c : countLines (colors_at c) = 0%nat.
Proof.
  unfold colors_at. destruct (colors !! c) as [code|] eqn:E; [|reflexivity].
  unfold colors in E. apply elem_of_list_to_map_2 in E.
  repeat (apply elem_of_cons in E;
          destruct E as [E|E]; [injection E as -> ->; reflexivity|]).
  apply elem_of_nil in E. contradiction.
Qed.

Lemma countLines_wrapped segs texts :
  Forall2 (fun (s : segment) (t : list byte) => True) segs texts ->
  countLines (mjoin (zip_with wrap segs texts)) = countLines (mjoin texts).
Proof.
  induction 1 as [|s t segs texts _ _ IH]; [reflexivity|].
  change (mjoin (zip_with wrap (s :: segs) (t :: texts)))
    with (wrap s t ++ mjoin (zip_with wrap segs texts)).
  change (mjoin (t :: texts)) with (t ++ mjoin texts).
  rewrite (countLines_app (wrap s t)), IH. unfold wrap.
  rewrite !countLines_app, !colors_at_no_newline. lia.
Qed.

(** The renderer writes one line of output for a line of input. *)
Lemma printColorized_one_line (line : list byte) matches :
  splitDelim x0a line = None ->
  exists out,
    Bling.printColorized line (Bling.makeColorizedSegments line matches) =
      io_write out /\ countLines out = 1%nat.
Proof.
  intros Hline.
  destruct (textPreserved_Bling line matches) as (texts & HF & -> & Hj).
  eexists. split; [reflexivity|].
  rewrite countLines_app, countLines_wrapped, Hj.
  - apply splitDelim_None_count in Hline. rewrite Hline. reflexivity.
  - eapply Forall2_impl; [exact HF | auto].
Qed.

Lemma runLoop_lines `{RegexEngine} fuel br (exprs : gmap string (list Regexp)) :
  (length (rd_data br) < fuel)%nat ->
  exists out,
    Driver.runLoop Bling.makeColorizedSegments Bling.printColorized
      fuel br exprs = (out, Ret (finalError br)) /\
    countLines out = countLines (rd_data br).
Proof.
  revert br; induction fuel as [|fuel IH]; intros [data err] Hlen; [lia|].
  cbn [rd_data] in Hlen.
  destruct (splitDelim x0a data) as [[ln rest]|] eqn:E.
  - destruct (splitDelim_line _ _ _ E) as (line & -> & -> & Hline).
    rewrite (runLoop_line _ _ _ _ _ _ _ Hline).
    destruct (printColorized_one_line line
                (findMatchingSegments line exprs) Hline) as (out & -> & Hout).
    destruct (IH (mkReader rest err)) as (out' & -> & Hout').
    { cbn [rd_data]. rewrite length_app in Hlen. simpl in Hlen. lia. }
    exists (out ++ out'). split; [reflexivity|].
    cbn [rd_data] in *. rewrite !countLines_app, Hout, Hout'.
    apply splitDelim_None_count in Hline. rewrite Hline. reflexivity.
  - exists []. split.
    + cbn [Driver.runLoop]. unfold ReadBytes. cbn [rd_data rd_err].
      rewrite E. unfold finalError. cbn [rd_err]. destruct err; reflexivity.
    + apply splitDelim_None_count in E. cbn [rd_data]. rewrite E. reflexivity.
Qed.

(** X9.  [run] never panics, on any input and with any bindings: it returns
    [nil] at a clean end of input and the read error otherwise.  It writes
    exactly one line of output for every line feed of the input: the
    rendering adds no line feed, and drops none. *)
Theorem X9_run_total `{RegexEngine} (r : reader)
    (exprs : gmap string (list Regexp)) :
  exists out,
    Bling.run r exprs = (out, Ret (finalError r)) /\
    Closed.run r exprs = (out, Ret (finalError r)) /\
    countLines out = countLines (rd_data r).
Proof.
  destruct (runLoop_lines (S (length (rd_data r))) r exprs) as (out & E & Hn);
    [lia|].
  exists out. split; [exact E|]. split; [|exact Hn].
  unfold Closed.run, Driver.run. rewrite runLoop_same. exact E.
Qed.

(** ** Argument parsing, continued *)

Section MoreArgsFacts.
Context `{RegexEngine} `{OS}.

Lemma parseLoop_error_rejected args i n (exprs : gmap string (list Regexp)) err :
  i + Z.of_nat (length args) = n ->
  parseLoop args i n exprs = inl err ->
  exists (k : nat) arg,
    args !! k = Some arg /\ rejected n (i + Z.of_nat k) arg.
Proof.
  revert i exprs; induction args as [|arg rest IH]; intros i exprs Hn;
    [discriminate|].
  cbn [parseLoop].
  assert (forall exprs',
    parseLoop rest (i + 1) n exprs' = inl err ->
    exists (k : nat) a,
      (arg :: rest) !! k = Some a /\ rejected n (i + Z.of_nat k) a) as Hrest.
  { intros exprs' E. destruct (IH (i + 1) exprs') as (k & a & Hk & Hr);
      [simpl length in Hn; lia | exact E |].
    exists (S k), a. split; [exact Hk|].
    replace (i + Z.of_nat (S k)) with (i + 1 + Z.of_nat k) by lia. exact Hr. }
  assert (rejected n i arg ->
    exists (k : nat) a,
      (arg :: rest) !! k = Some a /\ rejected n (i + Z.of_nat k) a) as Hhead.
  { intros Hr. exists 0%nat, arg. split; [reflexivity|].
    replace (i + Z.of_nat 0) with i by lia. exact Hr. }
  unfold rejected in Hhead.
  destruct (reFindStringSubmatch_cases arg) as [E|(m & col & pat & E)];
    rewrite E in *.
  - destruct (Z.eqb_spec i (n - 1)) as [Hi|Hi]; simpl.
    + destruct (Open arg) as [e|f] eqn:EO; [|discriminate].
      intros _. apply Hhead. right. eauto.
    + intros _. apply Hhead. left. assumption.
  - destruct (colors !! col) eqn:EC; [|intros _; apply Hhead; auto].
    destruct (Compile pat) as [expr|] eqn:EP; [|intros _; apply Hhead; auto].
    apply Hrest.
Qed.

End MoreArgsFacts.

(** X10.  [parseArgs] fails for four reasons and no other: it returns an
    error exactly when some argument is not of the form of a binding and is
    not the last one, is not of that form, is the last one and names a file
    that cannot be opened, is a binding whose colour is not in the table, or
    is a binding whose pattern does not compile. *)
Theorem X10_parseArgs_errors `{RegexEngine} `{OS} (args : list string) :
  (exists err, parseArgs args = inl err) <->
  (exists (k : nat) arg,
     args !! k = Some arg /\
     rejected (Z.of_nat (length args)) (Z.of_nat k) arg).
Proof.
  split; [|apply parseArgs_rejected].
  intros (err & E). unfold parseArgs in E.
  destruct (parseLoop args 0 (Z.of_nat (length args)) ∅)
    as [e|[exprs rc]] eqn:EL; [|discriminate].
  destruct (parseLoop_error_rejected args 0 (Z.of_nat (length args)) ∅ e)
    as (k & arg & Hk & Hr);
    [lia | exact EL |].
  exists k, arg. split; [exact Hk|].
  replace (Z.of_nat k) with (0 + Z.of_nat k) by lia. exact Hr.
Qed.

Section BindingsFacts.
Context `{RegexEngine} `{OS}.

Lemma addExpr_lookup (exprs : gmap string (list Regexp)) c expr col :
  default [] (addExpr exprs c expr !! col) =
    default [] (exprs !! col) ++ (if String.eqb c col then [expr] else []).
Proof.
  unfold addExpr.
  destruct (String.eqb_spec c col) as [->|Hne].
  - destruct (exprs !! col) as [l|] eqn:E.
    + rewrite lookup_insert_eq, E. reflexivity.
    + rewrite !lookup_insert_eq. reflexivity.
  - destruct (exprs !! c) as [l|] eqn:E.
    + rewrite lookup_insert_ne by assumption. rewrite app_nil_r. reflexivity.
    + rewrite !lookup_insert_ne by assumption. rewrite app_nil_r.
      reflexivity.
Qed.

Lemma addExpr_keys (exprs : gmap string (list Regexp)) c expr col :
  is_Some (addExpr exprs c expr !! col) -> c = col \/ is_Some (exprs !! col).
Proof.
  unfold addExpr. destruct (String.eqb_spec c col) as [->|Hne]; [auto|].
  destruct (exprs !! c) as [l|] eqn:E.
  - rewrite lookup_insert_ne by assumption. auto.
  - rewrite !lookup_insert_ne by assumption. auto.
Qed.

Lemma parseLoop_bindings args i n (exprs0 exprs : gmap string (list Regexp))
    rc col :
  i + Z.of_nat (length args) = n ->
  parseLoop args i n exprs0 = inr (exprs, rc) ->
  default [] (exprs !! col) = default [] (exprs0 !! col) ++ bindingsOf col args.
Proof.
  revert i exprs0; induction args as [|arg rest IH]; intros i exprs0 Hn.
  - simpl. intros [= <- <-]. rewrite app_nil_r. reflexivity.
  - cbn [parseLoop]. unfold bindingsOf. cbn [flat_map].
    fold (bindingsOf col rest). simpl length in Hn.
    destruct (reFindStringSubmatch_cases arg) as [E|(m & c & pat & E)];
      rewrite E.
    + destruct (Z.eqb_spec i (n - 1)) as [Hi|Hi]; simpl; [|discriminate].
      destruct (Open arg) as [e|f]; [discriminate|]. intros [= <- <-].
      destruct rest as [|? ?]; [|simpl length in Hn; lia].
      rewrite app_nil_r. reflexivity.
    + destruct (colors !! c); [|discriminate].
      destruct (Compile pat) as [expr|]; [|discriminate].
      intros E'. rewrite (IH (i + 1) _ ltac:(lia) E'), addExpr_lookup.
      rewrite <- app_assoc. reflexivity.
Qed.

Lemma parseLoop_keys args i n (exprs0 exprs : gmap string (list Regexp)) rc :
  (forall col, is_Some (exprs0 !! col) -> is_Some (colors !! col)) ->
  parseLoop args i n exprs0 = inr (exprs, rc) ->
  forall col, is_Some (exprs !! col) -> is_Some (colors !! col).
Proof.
  revert i exprs0; induction args as [|arg rest IH]; intros i exprs0 Hkeys.
  - simpl. intros [= <- <-]. exact Hkeys.
  - cbn [parseLoop].
    destruct (reFindStringSubmatch_cases arg) as [E|(m & c & pat & E)];
      rewrite E.
    + destruct (negb (i =? n - 1)); [discriminate|].
      destruct (Open arg) as [e|f]; [discriminate|]. intros [= <- <-].
      exact Hkeys.
    + destruct (colors !! c) as [code|] eqn:EC; [|discriminate].
      destruct (Compile pat) as [expr|]; [|discriminate].
      apply IH. intros col Hcol. apply addExpr_keys in Hcol.
      destruct Hcol as [<-|Hcol]; [rewrite EC; eauto | auto].
Qed.

Lemma parseLoop_reader args i n (exprs0 exprs : gmap string (list Regexp)) rc :
  i + Z.of_nat (length args) = n ->
  parseLoop args i n exprs0 = inr (exprs, rc) ->
  match last args with
  | None => rc = None
  | Some arg =>
      (reFindStringSubmatch arg = [] ->
       exists f, Open arg = inr f /\ rc = Some f) /\
      (reFindStringSubmatch arg <> [] -> rc = None)
  end.
Proof.
  revert i exprs0; induction args as [|arg rest IH]; intros i exprs0 Hn.
  - simpl. intros [= <- <-]. reflexivity.
  - cbn [parseLoop]. simpl length in Hn.
    destruct (reFindStringSubmatch_cases arg) as [E|(m & c & pat & E)];
      rewrite E.
    + destruct (Z.eqb_spec i (n - 1)) as [Hi|Hi]; simpl; [|discriminate].
      destruct (Open arg) as [e|f] eqn:EO; [discriminate|]. intros [= <- <-].
      destruct rest as [|? ?]; [|simpl length in Hn; lia].
      simpl. split; [eauto | congruence].
    + destruct (colors !! c); [|discriminate].
      destruct (Compile pat) as [expr|]; [|discriminate].
      intros E'. pose proof (IH (i + 1) _ ltac:(lia) E') as Hlast.
      destruct rest as [|a rest'].
      * simpl in E'. injection E' as <- <-. simpl.
        split; [congruence | reflexivity].
      * rewrite last_cons_cons. exact Hlast.
Qed.

End BindingsFacts.

(** X11.  When [parseArgs] succeeds, the map it returns holds, for every
    colour, the expressions that the bindings of that colour compile to, in
    the order of the arguments: bindings of one colour add up, none is lost
    and none replaces another.  Every colour of the map is in the table. *)
Theorem X11_parseArgs_bindings `{RegexEngine} `{OS} (args : list string)
    (exprs : gmap string (list Regexp)) (rc : reader) :
  parseArgs args = inr (exprs, rc) ->
  (forall col, default [] (exprs !! col) = bindingsOf col args) /\
  (forall col, is_Some (exprs !! col) -> is_Some (colors !! col)).
Proof.
  unfold parseArgs.
  destruct (parseLoop args 0 (Z.of_nat (length args)) ∅)
    as [e|[exprs' orc]] eqn:EL; [discriminate|].
  intros [= <- <-]. split.
  - intros col.
    rewrite (parseLoop_bindings args 0 (Z.of_nat (length args)) ∅ exprs' orc
               col ltac:(lia) EL).
    rewrite lookup_empty. reflexivity.
  - apply (parseLoop_keys args 0 (Z.of_nat (length args)) ∅ exprs' orc);
      [|exact EL].
    intros col Hcol. rewrite lookup_empty in Hcol.
    destruct Hcol as [? Hcol]. discriminate.
Qed.

Lemma X11_parseArgs_bindings_witness :
  let os := oneFile "f" (mkReader [] EOF) (mkReader [] EOF) in
  let args := ["-red=ab"; "-blue=c"; "-red=d"; "f"] in
  let exprs : gmap string (list (@Regexp literalEngine)) :=
    {[ "red" := [bytes "ab"; bytes "d"]; "blue" := [bytes "c"] ]} in
  @bindingsOf literalEngine "red" args = [bytes "ab"; bytes "d"] /\
  (forall col, default [] (exprs !! col) = @bindingsOf literalEngine col args) /\
  (forall col, is_Some (exprs !! col) -> is_Some (colors !! col)).
Proof.
  split; [reflexivity|].
  apply (@X11_parseArgs_bindings literalEngine
           (oneFile "f" (mkReader [] EOF) (mkReader [] EOF))
           ["-red=ab"; "-blue=c"; "-red=d"; "f"]
           {[ "red" := [bytes "ab"; bytes "d"]; "blue" := [bytes "c"] ]}
           (mkReader [] EOF)).
  vm_compute. reflexivity.
Defined.

(** X12.  The input of the program: when the last argument is not of the
    form of a binding, [parseArgs] returns the file of that name, opened; in
    every other case of success, an empty argument list included, it returns
    the standard input.  A file name is accepted in the last place only. *)
Theorem X12_parseArgs_input `{RegexEngine} `{OS} (args : list string)
    (exprs : gmap string (list Regexp)) (rc : reader) :
  parseArgs args = inr (exprs, rc) ->
  match last args with
  | None => rc = Stdin
  | Some arg =>
      (reFindStringSubmatch arg = [] -> Open arg = inr rc) /\
      (reFindStringSubmatch arg <> [] -> rc = Stdin)
  end /\
  (forall (k : nat) arg, args !! k = Some arg ->
     reFindStringSubmatch arg = [] -> S k = length args).
Proof.
  intros E. split.
  - unfold parseArgs in E.
    destruct (parseLoop args 0 (Z.of_nat (length args)) ∅)
      as [e|[exprs' orc]] eqn:EL; [discriminate|].
    injection E as <- <-.
    pose proof (parseLoop_reader args 0 (Z.of_nat (length args)) ∅ exprs' orc
                  ltac:(lia) EL) as Hl.
    destruct (last args) as [arg|].
    + destruct Hl as [Hfile Hstd]. split.
      * intros Harg. destruct (Hfile Harg) as (f & -> & ->). reflexivity.
      * intros Harg. rewrite (Hstd Harg). reflexivity.
    + rewrite Hl. reflexivity.
  - intros k arg Hk Harg.
    destruct (Nat.eq_dec (S k) (length args)) as [|Hne]; [assumption|].
    exfalso.
    assert (exists err, parseArgs args = inl err) as (err & Herr).
    { apply parseArgs_rejected. exists k, arg. split; [exact Hk|].
      unfold rejected. rewrite Harg. left.
      apply lookup_lt_Some in Hk. lia. }
    congruence.
Qed.

Lemma X12_parseArgs_input_witness :
  let file := mkReader (bytes "ab" ++ [x0a]) EOF in
  let os := oneFile "f" file (mkReader [] EOF) in
  match last ["-red=ab"; "f"] with
  | None => file = @Stdin os
  | Some arg =>
      (reFindStringSubmatch arg = [] -> @Open os arg = inr file) /\
      (reFindStringSubmatch arg <> [] -> file = @Stdin os)
  end /\
  (forall (k : nat) arg, ["-red=ab"; "f"] !! k = Some arg ->
     reFindStringSubmatch arg = [] -> S k = length ["-red=ab"; "f"]).
Proof.
  apply (@X12_parseArgs_input literalEngine
           (oneFile "f" (mkReader (bytes "ab" ++ [x0a]) EOF) (mkReader [] EOF))
           ["-red=ab"; "f"] {[ "red" := [bytes "ab"] ]}
           (mkReader (bytes "ab" ++ [x0a]) EOF)).
  vm_compute. reflexivity.
Defined.

(** ** The form of a binding *)

Lemma append_cons a (s r : string) : String a s +:+ r = String a (s +:+ r).
Proof. reflexivity. Qed.

Lemma append_nil (r : string) : "" +:+ r = r.
Proof. reflexivity. Qed.

Lemma append_assoc (a b c : string) : (a +:+ b) +:+ c = a +:+ b +:+ c.
Proof.
  induction a as [|x a IH]; [reflexivity|].
  rewrite !append_cons, IH. reflexivity.
Qed.

Lemma spanWord_spec s w r :
  spanWord s = (w, r) ->
  s = w +:+ r /\ allWord w = true /\
  match r with
  | EmptyString => True
  | String a _ => isWord a = false
  end.
Proof.
  revert w r; induction s as [|a s IH]; intros w r; cbn [spanWord].
  - intros [= <- <-]. auto.
  - destruct (isWord a) eqn:Ea.
    + destruct (spanWord s) as [w' r']. intros [= <- <-].
      destruct (IH _ _ eq_refl) as (-> & Hw & Hr).
      rewrite append_cons. cbn [allWord]. rewrite Ea, Hw. auto.
    + intros [= <- <-]. rewrite append_nil. auto.
Qed.

Lemma spanWord_app w a r :
  allWord w = true -> isWord a = false ->
  spanWord (w +:+ String a r) = (w, String a r).
Proof.
  intros Hw Ha. induction w as [|b w IH].
  - rewrite append_nil. cbn [spanWord]. rewrite Ha. reflexivity.
  - cbn [allWord] in Hw. apply andb_true_iff in Hw. destruct Hw as [Hb Hw].
    rewrite append_cons. cbn [spanWord]. rewrite Hb, (IH Hw). reflexivity.
Qed.

Lemma untilNewline_spec s :
  untilNewline (untilNewline s) = untilNewline s /\
  exists rest,
    s = untilNewline s +:+ rest /\
    match rest with
    | EmptyString => True
    | String a _ => isNewline a = true
    end.
Proof.
  induction s as [|a s (IH1 & rest & IH2 & IH3)]; cbn [untilNewline].
  - split; [reflexivity|]. exists "". auto.
  - destruct (isNewline a) eqn:Ea.
    + split; [reflexivity|]. exists (String a s). rewrite append_nil. auto.
    + cbn [untilNewline]. rewrite Ea, IH1. split; [reflexivity|].
      exists rest. rewrite append_cons, <- IH2. auto.
Qed.

Lemma untilNewline_app p rest :
  untilNewline p = p ->
  match rest with
  | EmptyString => True
  | String a _ => isNewline a = true
  end ->
  untilNewline (p +:+ rest) = p.
Proof.
  intros Hp Hrest. induction p as [|a p IH].
  - rewrite append_nil. destruct rest as [|b rest]; [reflexivity|].
    cbn [untilNewline]. rewrite Hrest. reflexivity.
  - cbn [untilNewline] in Hp. rewrite append_cons. cbn [untilNewline].
    destruct (isNewline a); [discriminate|].
    injection Hp as Hp. rewrite (IH Hp). reflexivity.
Qed.

(** X13.  What [parseArgs] takes for a binding.  The expression matches an
    argument exactly when the argument is a dash, a non-empty colour name of
    letters, digits and underscores, an equals sign and a pattern without
    line feed, followed by nothing or by a line feed and anything; the two
    groups are the colour name and the pattern.  So the pattern may be empty
    and may hold equals signs, and what follows a line feed is cut off. *)
Theorem X13_binding_form (arg m col pattern : string) :
  reFindStringSubmatch arg = [m; col; pattern] <->
  col <> "" /\ allWord col = true /\ untilNewline pattern = pattern /\
  m = "-" +:+ col +:+ "=" +:+ pattern /\
  exists rest,
    arg = m +:+ rest /\
    match rest with
    | EmptyString => True
    | String a _ => isNewline a = true
    end.
Proof.
  split.
  - unfold reFindStringSubmatch. destruct arg as [|a s]; [discriminate|].
    destruct (Ascii.ascii_dec a "-") as [->|Hne].
    2:{ destruct a as [[] [] [] [] [] [] [] []]; try discriminate.
        contradiction Hne. reflexivity. }
    destruct (spanWord s) as [w r] eqn:Es.
    destruct (spanWord_spec _ _ _ Es) as (-> & Hw & _).
    destruct w as [|w0 w]; [discriminate|].
    destruct r as [|b r]; [discriminate|].
    destruct (Ascii.ascii_dec b "=") as [->|Hne].
    2:{ destruct b as [[] [] [] [] [] [] [] []]; try discriminate.
        contradiction Hne. reflexivity. }
    intros [= <- <- <-].
    destruct (untilNewline_spec r) as (Hidem & rest & Hr & Hrest).
    repeat split; try assumption; try discriminate.
    exists rest. split; [|assumption].
    remember (untilNewline r) as p eqn:Ep. rewrite Hr.
    change ("-" +:+ String w0 w +:+ "=" +:+ p)
      with (String "-" (String w0 w +:+ String "=" p)).
    rewrite (append_cons "-"%char), (append_assoc (String w0 w)).
    rewrite (append_cons "="%char p rest). reflexivity.
  - intros (Hne & Hw & Hp & -> & rest & -> & Hrest).
    unfold reFindStringSubmatch.
    change ("-" +:+ col +:+ "=" +:+ pattern)
      with (String "-" (col +:+ String "=" pattern)).
    rewrite (append_cons "-"%char), (append_assoc col).
    rewrite (append_cons "="%char pattern rest).
    rewrite (spanWord_app col "=" (pattern +:+ rest) Hw eq_refl).
    destruct col as [|c0 col]; [contradiction|].
    rewrite (untilNewline_app _ _ Hp Hrest). reflexivity.
Qed.

(** ** The matcher *)


(** ** Colours and the table *)

Lemma colors_nonempty c code : colors !! c = Some code -> code <> [].
Proof.
  intros E. unfold colors in E. apply elem_of_list_to_map_2 in E.
  repeat (apply elem_of_cons in E;
          destruct E as [E|E]; [injection E as -> ->; discriminate|]).
  apply elem_of_nil in E. contradiction.
Qed.

(** X15.  [colorize] panics on the colour names that are not keys of the
    table, the names that [parseArgs] rejects, and on no other; for a key it
    returns the text between the escape sequence of the colour and the
    sequence [reset], which is not the sequence of the colour [reset] that the
    renderer writes. *)
Theorem X15_colorize (c : color) (s : list byte) :
  colorize c s =
    match colors !! c with
    | Some code => Some (code ++ s ++ esc "[m")
    | None => None
    end /\
  colors !! RESET <> Some (esc "[m").
Proof.
  split; [|discriminate].
  unfold colorize, colors_at.
  destruct (colors !! c) as [code|] eqn:E; [|reflexivity].
  apply colors_nonempty in E. destruct code; [contradiction | reflexivity].
Qed.

(** X16.  From the command line to the renderer, no colour is without an
    escape sequence: for bindings that [parseArgs] accepted, the colour of
    every segment that the segmenter makes for a line, from the spans of the
    matcher, is a key of the table. *)
Theorem X16_colors_in_table `{RegexEngine} `{OS} (args : list string)
    (exprs : gmap string (list Regexp)) (rc : reader)
    (line : list byte) (s : segment) :
  parseArgs args = inr (exprs, rc) ->
  In s (Bling.makeColorizedSegments line (findMatchingSegments line exprs)) ->
  is_Some (colors !! seg_c s).
Proof.
  intros Hparse Hin.
  assert (forall col, is_Some (exprs !! col) -> is_Some (colors !! col))
    as Hkeys.
  { unfold parseArgs in Hparse.
    destruct (parseLoop args 0 (Z.of_nat (length args)) ∅)
      as [e|[exprs' orc]] eqn:EL; [discriminate|].
    injection Hparse as <- <-.
    apply (parseLoop_keys args 0 (Z.of_nat (length args)) ∅ exprs' orc);
      [|exact EL].
    intros col Hcol. rewrite lookup_empty in Hcol.
    destruct Hcol as [? Hcol]. discriminate. }
  destruct (makeColorizedSegments_colors _ _ _ Hin) as [->|[->|(m & Hm & <-)]].
  - exists (esc "[0m"). exact (proj2 colors_pseudo).
  - exists (esc "[37;1;4m"). exact (proj1 colors_pseudo).
  - unfold findMatchingSegments, sortByBegin in Hm.
    apply list_elem_of_In in Hm. rewrite merge_sort_Permutation in Hm.
    apply list_elem_of_In, in_flat_map in Hm.
    destruct Hm as ([c exs] & Hce & Hm). simpl in Hm.
    apply list_elem_of_In, elem_of_map_to_list in Hce.
    apply in_flat_map in Hm. destruct Hm as (expr & _ & Hm).
    unfold spansOf in Hm. apply list_elem_of_In, list_elem_of_fmap in Hm.
    destruct Hm as (idx & -> & _). simpl. apply Hkeys. rewrite Hce. eauto.
Qed.

Lemma X16_colors_in_table_witness :
  let os := oneFile "f" (mkReader [] EOF) (mkReader [] EOF) in
  let exprs : gmap string (list (@Regexp literalEngine)) :=
    {[ "red" := [bytes "ab"] ]} in
  let line := bytes "abc" in
  In (newSegment 0 2 RED)
    (Bling.makeColorizedSegments line
       (@findMatchingSegments literalEngine line exprs)) /\
  is_Some (colors !! seg_c (newSegment 0 2 RED)).
Proof.
  assert (In (newSegment 0 2 RED)
            (Bling.makeColorizedSegments (bytes "abc")
               (@findMatchingSegments literalEngine (bytes "abc")
                  {[ "red" := [bytes "ab"] ]}))) as Hin
    by (vm_compute; auto).
  split; [exact Hin|].
  apply (@X16_colors_in_table literalEngine
           (oneFile "f" (mkReader [] EOF) (mkReader [] EOF))
           ["-red=ab"] {[ "red" := [bytes "ab"] ]} (mkReader [] EOF)
           (bytes "abc") (newSegment 0 2 RED)).
  - vm_compute. reflexivity.
  - exact Hin.
Defined.
